(** * Momo memory plugin for OpenClaw: buffers, silence timers, recall filter

    A shallow embedding of the stateful core of [src/index.ts]:
    - the recall-path filter ([looksLikeCasualChat], [hasMemoryKeywords] and
      the length gate of the [before_agent_start] hook);
    - the capture path: the module-level maps [messageBuffers] and
      [silenceTimers], [getChannelKey], [flushBuffer], the [agent_end] hook,
      the silence-timer callback and the service [stop] handler.

    JavaScript strings are sequences of UTF-16 code units, and [length],
    [includes], [trim] and the regular expressions of the source (none has
    the [u] flag) all work on code units; so a string is a [list N] here. *)

From Stdlib Require Import ZArith NArith Ascii String List Bool Lia.
From stdpp Require Import gmap list.

Set Default Proof Using "Type".
Local Open Scope N_scope.
Local Open Scope nat_scope.

(** ** JavaScript strings *)

Abbreviation JSString := (list N).

(** A source literal made of Basic Latin characters, as code units. *)
Definition js (s : string) : JSString :=
  map N_of_ascii (list_ascii_of_string s).
Arguments js s%_string.

(** [s.startsWith(p)], returning what follows the prefix. *)
Fixpoint strip_prefix (p s : JSString) : option JSString :=
  match p, s with
  | [], _ => Some s
  | _ :: _, [] => None
  | a :: p', b :: s' => if N.eqb a b then strip_prefix p' s' else None
  end.

(** [s.includes(sub)]: [sub] occurs at some index of [s]. *)
Fixpoint includes (sub s : JSString) : bool :=
  match strip_prefix sub s with
  | Some _ => true
  | None => match s with
            | [] => false
            | _ :: s' => includes sub s'
            end
  end.

(** ECMAScript WhiteSpace and LineTerminator code points: what [trim]
    strips and what [\s] matches. *)
Definition isSpace (c : N) : bool :=
  ((9 <=? c) && (c <=? 13) || (c =? 32) || (c =? 160) || (c =? 5760)
   || (8192 <=? c) && (c <=? 8202) || (c =? 8232) || (c =? 8233)
   || (c =? 8239) || (c =? 8287) || (c =? 12288) || (c =? 65279))%N.

(** [\w] without the [i] and [u] flags: [A-Za-z0-9_]. *)
Definition isWordChar (c : N) : bool :=
  ((48 <=? c) && (c <=? 57) || (65 <=? c) && (c <=? 90) || (c =? 95)
   || (97 <=? c) && (c <=? 122))%N.

Fixpoint trimStart (s : JSString) : JSString :=
  match s with
  | c :: s' => if isSpace c then trimStart s' else s
  | [] => []
  end.

Definition trimEnd (s : JSString) : JSString := rev (trimStart (rev s)).

Definition trim (s : JSString) : JSString := trimEnd (trimStart s).

(** ** The fragment of regular expressions used by [casualPatterns] *)

#[warnings="-register-all"]
Inductive regex : Type :=
| Lit (s : JSString)          (* a run of literal characters *)
| Alt (rs : list regex)       (* (r1|r2|...) *)
| Seq (r1 r2 : regex)         (* r1 r2 *)
| SpaceStar                   (* \s* *)
| WordBoundary.               (* \b *)

Definition isWordAt (c : option N) : bool :=
  match c with Some x => isWordChar x | None => false end.

Definition last_or (prev : option N) (l : JSString) : option N :=
  match rev l with x :: _ => Some x | [] => prev end.

(** [\s*] is greedy and gives characters back on failure of what follows. *)
Fixpoint space_star (prev : option N) (s : JSString)
    (k : option N -> JSString -> bool) : bool :=
  match s with
  | c :: s' =>
      if isSpace c then space_star (Some c) s' k || k prev s else k prev s
  | [] => k prev s
  end.

(** Backtracking matcher in continuation style: [prev] is the character
    before the current position (none at the start of the input), [s] what
    is left of the input, [k] what remains to be matched. *)
Fixpoint rmatch (r : regex) (prev : option N) (s : JSString)
    (k : option N -> JSString -> bool) : bool :=
  match r with
  | Lit l =>
      match strip_prefix l s with
      | Some rest => k (last_or prev l) rest
      | None => false
      end
  | Alt rs => existsb (fun r' => rmatch r' prev s k) rs
  | Seq r1 r2 => rmatch r1 prev s (fun p s' => rmatch r2 p s' k)
  | SpaceStar => space_star prev s k
  | WordBoundary =>
      if xorb (isWordAt prev) (isWordAt (head s)) then k prev s else false
  end.

(** [/^r/.test(s)]: every pattern of the source starts with [^] and has no
    flag, so a match is attempted at index 0 only. *)
Definition test (r : regex) (s : JSString) : bool :=
  rmatch r None s (fun _ _ => true).

Definition words (l : list string) : regex := Alt (map (fun w => Lit (js w)) l).

(** The eight patterns of [looksLikeCasualChat], in source order. *)
Definition casualPatterns : list regex :=
  [ Seq (words ["hi"; "hey"; "hello"; "yo"; "sup"; "hola"; "howdy"; "hiya";
                "heya"]%string) WordBoundary;
    Seq (Seq (Lit (js "good"))
             (Seq SpaceStar
                  (words ["morning"; "afternoon"; "evening"; "night"]%string)))
        WordBoundary;
    Seq (words ["thanks"; "thank you"; "thx"; "ty"]%string) WordBoundary;
    Seq (words ["ok"; "okay"; "sure"; "got it"; "sounds good"; "cool"; "nice";
                "great"; "awesome"; "perfect"]%string) WordBoundary;
    Seq (words ["bye"; "goodbye"; "see you"; "later"; "gn"; "ttyl"]%string)
        WordBoundary;
    Seq (words ["yes"; "no"; "yep"; "nope"; "yeah"; "nah"]%string) WordBoundary;
    Alt [ Lit (js "lol"); Lit (js "lmao"); Lit (js "haha"); Lit (js "heh");
          Lit [55357; 56834]%N;      (* U+1F602 as a surrogate pair *)
          Lit [55357; 56397]%N;      (* U+1F44D *)
          Lit [55357; 56911]%N ];    (* U+1F64F *)
    Seq (words ["how are you"; "what's up"; "whats up"; "wassup"]%string)
        WordBoundary ].

Definition keywords : list JSString :=
  map js
    [ "decide"; "decision"; "chose"; "choice"; "agreed"; "approved";
      "committed"; "plan"; "strategy"; "priorit"; "delegate";
      "what did"; "when did"; "who said"; "remember"; "last time";
      "previously"; "before"; "history"; "recap"; "summary";
      "meeting"; "discussed"; "update"; "status"; "progress";
      "deadline"; "schedule"; "budget"; "roadmap"; "milestone" ]%string.

(** [keywords.some((kw) => text.includes(kw))] *)
Definition hasMemoryKeywords (text : JSString) : bool :=
  existsb (fun kw => includes kw text) keywords.

(** [String.prototype.toLowerCase] on Basic Latin input: only [A]-[Z]
    change. Used to run the filter on concrete ASCII texts. *)
Definition toLowerCaseLatin (s : JSString) : JSString :=
  map (fun c => if ((65 <=? c) && (c <=? 90))%N then (c + 32)%N else c) s.

Section RelevanceFilter.

(** The Unicode case tables behind [toLowerCase] are the runtime's, not
    the repository's: the filter is parametrised by them. *)
Variable toLowerCase : JSString -> JSString.

Definition lowered (text : JSString) : JSString := trim (toLowerCase text).

(** The [for (const pattern of casualPatterns)] loop. *)
Fixpoint anyPattern (ps : list regex) (lower : JSString) : bool :=
  match ps with
  | [] => false
  | p :: ps' => if test p lower then true else anyPattern ps' lower
  end.

Definition looksLikeCasualChat (text : JSString) : bool :=
  let lower := lowered text in
  if anyPattern casualPatterns lower then true
  else if (length lower <? 40) && negb (includes (js "?") lower)
          && negb (hasMemoryKeywords lower)
  then true
  else false.

(** The gate of the [before_agent_start] hook on the selected user message:
    [if (!userMessage || userMessage.length < 30) return {};]
    [if (looksLikeCasualChat(userMessage)) return {};]
    [true] means that the context API is consulted. *)
Definition shouldConsultMemory (userMessage : JSString) : bool :=
  match userMessage with
  | [] => false
  | _ =>
      if length userMessage <? 30 then false
      else if looksLikeCasualChat userMessage then false
      else true
  end.

End RelevanceFilter.


(** ** Capture path: data model *)

Inductive Role : Type := user | assistant.

Record BufferedMessage : Type := {
  role : Role;
  content : JSString;
  timestamp : JSString
}.

(** What the host hands to the [agent_end] hook. A message's [content] is a
    string, an array of typed parts, or anything else. *)
Record ContentPart : Type := { part_type : JSString; part_text : JSString }.

Inductive MsgContent : Type :=
| ContentString (s : JSString)
| ContentParts (ps : list ContentPart)
| ContentOther.

Record EventMessage : Type := { msg_role : JSString; msg_content : MsgContent }.

Record Session : Type := {
  channelId : option JSString;
  session_id : option JSString
}.

Record Event : Type := {
  session : option Session;
  messages : option (list EventMessage)
}.

(** The body of a [POST /api/ext/extract] call. *)
Record Request : Type := {
  req_messages : list BufferedMessage;
  req_source : JSString;
  req_channel : JSString
}.

(** How the extraction call ends: [momoFetch] resolves with a result whose
    [decisionsFound] is read, or it throws. *)
Inductive Outcome : Type :=
| Resolved (decisionsFound : Z)
| Rejected.

Inductive LogEntry : Type :=
| InfoCaptured (decisionsFound : Z)
| WarnCaptureFailed
| InfoBufferFull (len : nat)
| InfoStopped.

Definition SILENCE_TIMEOUT_MS : Z := 5 * 60 * 1000.
Definition MAX_BUFFER_SIZE : nat := 20.

(** ** [Map<string, BufferedMessage[]>] with its insertion order

    [stop] iterates over [messageBuffers], and a JavaScript [Map] iterates
    in insertion order: the store is an association list, oldest key
    first. [set] on a present key keeps its place, on a new key appends. *)

Abbreviation BufferMap := (list (JSString * list BufferedMessage)).

Fixpoint Map_get (k : JSString) (m : BufferMap)
    : option (list BufferedMessage) :=
  match m with
  | [] => None
  | (k', v) :: m' => if decide (k' = k) then Some v else Map_get k m'
  end.

Definition Map_has (k : JSString) (m : BufferMap) : bool :=
  match Map_get k m with Some _ => true | None => false end.

Fixpoint Map_set (k : JSString) (v : list BufferedMessage) (m : BufferMap)
    : BufferMap :=
  match m with
  | [] => [(k, v)]
  | (k', v') :: m' =>
      if decide (k' = k) then (k', v) :: m' else (k', v') :: Map_set k v m'
  end.

Fixpoint Map_delete (k : JSString) (m : BufferMap) : BufferMap :=
  match m with
  | [] => []
  | (k', v') :: m' =>
      if decide (k' = k) then Map_delete k m' else (k', v') :: Map_delete k m'
  end.

Definition Map_keys (m : BufferMap) : list JSString := map fst m.

(** ** Program state

    [messageBuffers] and [silenceTimers] are the module-level maps.
    [pendingTimers] is the host's table of scheduled timeouts: a handle
    returned by [setTimeout] is in it, with the channel key its callback
    closed over, until it fires or is cleared. [requests] and [logs] record
    the calls made to the extraction API and to the logger, oldest first. *)
Record State : Type := {
  messageBuffers : BufferMap;
  silenceTimers : gmap JSString nat;
  pendingTimers : gmap nat JSString;
  nextHandle : nat;
  requests : list Request;
  logs : list LogEntry
}.

Definition initial : State :=
  {| messageBuffers := []; silenceTimers := ∅; pendingTimers := ∅;
     nextHandle := 0; requests := []; logs := [] |}.

Definition with_buffers (f : BufferMap -> BufferMap) (st : State) : State :=
  {| messageBuffers := f (messageBuffers st);
     silenceTimers := silenceTimers st; pendingTimers := pendingTimers st;
     nextHandle := nextHandle st; requests := requests st; logs := logs st |}.

Definition with_silenceTimers (f : gmap JSString nat -> gmap JSString nat)
    (st : State) : State :=
  {| messageBuffers := messageBuffers st;
     silenceTimers := f (silenceTimers st); pendingTimers := pendingTimers st;
     nextHandle := nextHandle st; requests := requests st; logs := logs st |}.

Definition log (e : LogEntry) (st : State) : State :=
  {| messageBuffers := messageBuffers st;
     silenceTimers := silenceTimers st; pendingTimers := pendingTimers st;
     nextHandle := nextHandle st; requests := requests st;
     logs := logs st ++ [e] |}.

(** The call to [momoFetch] leaving the process. *)
Definition send (r : Request) (st : State) : State :=
  {| messageBuffers := messageBuffers st;
     silenceTimers := silenceTimers st; pendingTimers := pendingTimers st;
     nextHandle := nextHandle st; requests := requests st ++ [r];
     logs := logs st |}.

(** [clearTimeout(h)]: a handle that is not pending is ignored. *)
Definition clearTimeout (h : nat) (st : State) : State :=
  {| messageBuffers := messageBuffers st;
     silenceTimers := silenceTimers st;
     pendingTimers := delete h (pendingTimers st);
     nextHandle := nextHandle st; requests := requests st; logs := logs st |}.

(** [setTimeout(callback, SILENCE_TIMEOUT_MS)] for the callback closed over
    [channelKey]: a fresh handle. Time is not modelled; a pending timer may
    fire at any later step. *)
Definition setTimeout (channelKey : JSString) (st : State) : nat * State :=
  (nextHandle st,
   {| messageBuffers := messageBuffers st;
      silenceTimers := silenceTimers st;
      pendingTimers := <[nextHandle st := channelKey]> (pendingTimers st);
      nextHandle := S (nextHandle st); requests := requests st;
      logs := logs st |}).

(** ** Reading an event *)

(** A string operand of [||]: [undefined] and the empty string are falsy. *)
Definition truthy (s : option JSString) : option JSString :=
  match s with
  | Some (c :: s') => Some (c :: s')
  | _ => None
  end.

(** [event?.session?.channelId || event?.session?.id || "default"] *)
Definition getChannelKey (event : Event) : JSString :=
  match session event with
  | Some s =>
      match truthy (channelId s) with
      | Some k => k
      | None =>
          match truthy (session_id s) with
          | Some k => k
          | None => js "default"
          end
      end
  | None => js "default"
  end.

(** [Array.prototype.join] *)
Fixpoint join (sep : JSString) (l : list JSString) : JSString :=
  match l with
  | [] => []
  | [x] => x
  | x :: l' => x ++ sep ++ join sep l'
  end.

Definition isTextPart (c : ContentPart) : bool :=
  bool_decide (part_type c = js "text").

(** The flattening of [msg.content] in the [agent_end] hook. *)
Definition flatten (c : MsgContent) : JSString :=
  match c with
  | ContentString s => s
  | ContentParts ps => join [10%N] (map part_text (filter isTextPart ps))
  | ContentOther => []
  end.

Definition roleOf (r : JSString) : option Role :=
  if decide (r = js "user") then Some user
  else if decide (r = js "assistant") then Some assistant
  else None.

(** One turn of the loop over [event.messages]: the message pushed onto
    [newMessages], if any. *)
Definition qualifying (now : JSString) (msg : EventMessage)
    : option BufferedMessage :=
  match roleOf (msg_role msg) with
  | Some r =>
      let c := flatten (msg_content msg) in
      match c with
      | [] => None
      | _ => if 5 <? length c
             then Some {| role := r; content := c; timestamp := now |}
             else None
      end
  | None => None
  end.

Definition newMessages (now : JSString) (event : Event)
    : list BufferedMessage :=
  match messages event with
  | Some ms => omap (qualifying now) ms
  | None => []
  end.

(** ** [flushBuffer]

    The function suspends once, at [await momoFetch(...)]. [flushBuffer_begin]
    runs it up to there and returns the request that left, if one did;
    [flushBuffer_end] runs it from the response on. *)

Definition mkRequest (channelKey : JSString) (msgs : list BufferedMessage)
    : Request :=
  {| req_messages := msgs; req_source := js "openclaw";
     req_channel := channelKey |}.

Definition flushBuffer_begin (channelKey : JSString) (st : State)
    : State * option Request :=
  match Map_get channelKey (messageBuffers st) with
  | Some msgs =>
      if length msgs <? 4
      then (with_buffers (Map_delete channelKey) st, None)
      else (send (mkRequest channelKey msgs) st,
            Some (mkRequest channelKey msgs))
  | None => (with_buffers (Map_delete channelKey) st, None)
  end.

Definition flushBuffer_end (channelKey : JSString) (o : Outcome) (st : State)
    : State :=
  let st1 :=
    match o with
    | Resolved d => if (0 <? d)%Z then log (InfoCaptured d) st else st
    | Rejected => log WarnCaptureFailed st
    end in
  with_buffers (Map_delete channelKey) st1.

(** A whole call with nothing else running during the [await]; [extract]
    is the behaviour of the extraction API. *)
Definition flushBuffer (extract : Request -> Outcome) (channelKey : JSString)
    (st : State) : State :=
  match flushBuffer_begin channelKey st with
  | (st1, Some r) => flushBuffer_end channelKey (extract r) st1
  | (st1, None) => st1
  end.

(** ** The [agent_end] hook *)

(** [buffer.slice(-n)] *)
Definition slice_last {A} (n : nat) (l : list A) : list A :=
  skipn (length l - n) l.

Definition buffer_of (k : JSString) (st : State) : list BufferedMessage :=
  match Map_get k (messageBuffers st) with Some b => b | None => [] end.

(** Lines 742-745: create the buffer if absent, then push. *)
Definition append (channelKey : JSString) (new : list BufferedMessage)
    (st : State) : State :=
  let st1 :=
    if Map_has channelKey (messageBuffers st) then st
    else with_buffers (Map_set channelKey []) st in
  with_buffers (Map_set channelKey (buffer_of channelKey st1 ++ new)) st1.

(** Lines 747-750: the old timer is cleared; its entry stays in
    [silenceTimers]. *)
Definition clearSilenceTimer (channelKey : JSString) (st : State) : State :=
  match silenceTimers st !! channelKey with
  | Some h => clearTimeout h st
  | None => st
  end.

Definition tempKey (channelKey : JSString) : JSString :=
  channelKey ++ js "__flush".

(** Lines 755-768, up to the [await] inside [flushBuffer]. *)
Definition overflow_begin (channelKey : JSString) (st : State)
    : State * option Request :=
  let buffer := buffer_of channelKey st in
  let st1 := log (InfoBufferFull (length buffer)) st in
  let toExtract := buffer in
  let st2 := with_buffers (Map_set channelKey (slice_last 4 buffer)) st1 in
  let st3 := with_buffers (Map_set (tempKey channelKey) toExtract) st2 in
  flushBuffer_begin (tempKey channelKey) st3.

(** Lines 771-778. *)
Definition armSilenceTimer (channelKey : JSString) (st : State) : State :=
  let '(h, st1) := setTimeout channelKey st in
  with_silenceTimers (insert channelKey h) st1.

(** The hook up to its first suspension, or to its end when it does not
    suspend. The second component is the in-flight [flushBuffer] call: the
    key it was called with and the request it sent. *)
Definition agent_end_begin (now : JSString) (event : Event) (st : State)
    : State * option (JSString * Request) :=
  let channelKey := getChannelKey event in
  match newMessages now event with
  | [] => (st, None)
  | new =>
      let st1 := append channelKey new st in
      let st2 := clearSilenceTimer channelKey st1 in
      if MAX_BUFFER_SIZE <=? length (buffer_of channelKey st2) then
        let '(st3, r) := overflow_begin channelKey st2 in
        (st3, pair (tempKey channelKey) <$> r)
      else (armSilenceTimer channelKey st2, None)
  end.

(** The hook run to completion with nothing else running meanwhile. *)
Definition agent_end (extract : Request -> Outcome) (now : JSString)
    (event : Event) (st : State) : State :=
  match agent_end_begin now event st with
  | (st1, Some (k, r)) => flushBuffer_end k (extract r) st1
  | (st1, None) => st1
  end.

(** ** The silence-timer callback *)

(** The host takes the fired handle off its table, then the callback runs
    [silenceTimers.delete(channelKey)]: the state in which [flushBuffer] is
    called. *)
Definition timer_prologue (h : nat) (channelKey : JSString) (st : State)
    : State :=
  with_silenceTimers (delete channelKey) (clearTimeout h st).

Definition timer_fire_begin (h : nat) (st : State)
    : State * option (JSString * Request) :=
  match pendingTimers st !! h with
  | Some channelKey =>
      let '(st1, r) := flushBuffer_begin channelKey
                         (timer_prologue h channelKey st) in
      (st1, pair channelKey <$> r)
  | None => (st, None)
  end.

Definition timer_fire (extract : Request -> Outcome) (h : nat) (st : State)
    : State :=
  match timer_fire_begin h st with
  | (st1, Some (k, r)) => flushBuffer_end k (extract r) st1
  | (st1, None) => st1
  end.

(** ** The service [stop] handler *)

(** Body of [for (const [channelKey] of messageBuffers)]. *)
Definition stop_body (extract : Request -> Outcome) (channelKey : JSString)
    (st : State) : State :=
  let st1 :=
    match silenceTimers st !! channelKey with
    | Some h => with_silenceTimers (delete channelKey) (clearTimeout h st)
    | None => st
    end in
  flushBuffer extract channelKey st1.

(** The loop over the keys still to visit. Each turn removes only the entry
    it is visiting, so the keys visited are those present at the start, in
    their order. Each [await] is over before the next turn starts. *)
Fixpoint stop_loop (extract : Request -> Outcome) (keys : list JSString)
    (st : State) : State :=
  match keys with
  | [] => st
  | k :: keys' => stop_loop extract keys' (stop_body extract k st)
  end.

Definition stop (extract : Request -> Outcome) (st : State) : State :=
  log InfoStopped (stop_loop extract (Map_keys (messageBuffers st)) st).

(** ** The event loop

    A configuration is a state and the keys of the [flushBuffer] calls that
    wait for their response. Hooks and timer callbacks run up to their
    [await]; responses come back in any order, interleaved with further
    events. [stop] runs as one step: the host delivers nothing while the
    service shuts down. *)
Definition Config : Type := State * list JSString.

Definition inflight (r : option (JSString * Request)) : list JSString :=
  match r with Some (k, _) => [k] | None => [] end.

Inductive step : Config -> Config -> Prop :=
| step_agent_end now event st fl st' r :
    agent_end_begin now event st = (st', r) ->
    step (st, fl) (st', fl ++ inflight r)
| step_timer h k st fl st' r :
    pendingTimers st !! h = Some k ->
    timer_fire_begin h st = (st', r) ->
    step (st, fl) (st', fl ++ inflight r)
| step_response k o st fl1 fl2 :
    step (st, fl1 ++ k :: fl2) (flushBuffer_end k o st, fl1 ++ fl2)
| step_stop extract st fl :
    step (st, fl) (stop extract st, fl).

Definition reachable (c : Config) : Prop := rtc step (initial, []) c.

(** The requests that a flush of one entry of the store sends: one if it
    holds at least 4 messages, none otherwise. *)
Definition batch_of (e : JSString * list BufferedMessage) : list Request :=
  if 4 <=? length (snd e) then [mkRequest (fst e) (snd e)] else [].

(** ** Well-formed states

    The keys of the store are distinct; a pending timeout is the one
    recorded for its channel in [silenceTimers]; handles are older than the
    next one to be allocated. *)

Definition timers_ok (T : gmap JSString nat) (P : gmap nat JSString)
    (n : nat) : Prop :=
  (forall h k, P !! h = Some k -> T !! k = Some h /\ h < n)
  /\ (forall k h, T !! k = Some h -> h < n).

Definition wf (st : State) : Prop :=
  NoDup (Map_keys (messageBuffers st))
  /\ timers_ok (silenceTimers st) (pendingTimers st) (nextHandle st).

(** ** The [before_agent_start] hook

    The event carries a message list when [event.messages] is an array and
    a prompt when [event.prompt] is a string. *)

Record RecallEvent : Type := {
  recall_messages : option (list EventMessage);
  recall_prompt : option JSString
}.

(** The flattening of [msg.content] in this hook: text parts joined by a
    space. *)
Definition flattenRecall (c : MsgContent) : JSString :=
  match c with
  | ContentString s => s
  | ContentParts ps => join (js " ") (map part_text (filter isTextPart ps))
  | ContentOther => []
  end.

(** The loop [for (let i = event.messages.length - 1; i >= 0; i--)], on the
    messages from the last one backwards: it stops at the first message of
    role ["user"] and takes its text, whatever it is. *)
Fixpoint lastUserMessage (backwards : list EventMessage) : JSString :=
  match backwards with
  | [] => []
  | msg :: earlier =>
      if decide (msg_role msg = js "user")
      then flattenRecall (msg_content msg)
      else lastUserMessage earlier
  end.

(** Lines 641-665: the last user message, or the prompt if that is empty. *)
Definition selectUserMessage (event : RecallEvent) : JSString :=
  let userMessage :=
    match recall_messages event with
    | Some ms => lastUserMessage (rev ms)
    | None => []
    end in
  match userMessage, recall_prompt event with
  | [], Some p => p
  | _, _ => userMessage
  end.

(** The parameters of a [GET /api/ext/context] call. *)
Record ContextQuery : Type := {
  q_query : JSString;
  q_maxTokens : JSString
}.

(** How the context call ends: a result whose [context] (a non-string is
    [None]) and [decisionsIncluded] are read, or a throw. *)
Inductive ContextOutcome : Type :=
| ContextResolved (context : option JSString) (decisionsIncluded : Z)
| ContextRejected.

Inductive RecallLog : Type :=
| InfoRecallCheck (preview : JSString)
| InfoRecallInject (decisionsIncluded : Z)
| WarnRecallFailed.

(** What the hook returns: [{}] or [{ prependContext }]. *)
Inductive HookResult : Type :=
| NoContext
| PrependContext (text : JSString).

(** The template literal of line 691; 34 is the double quote, 10 the line
    feed. *)
Definition wrapContext (context : JSString) : JSString :=
  js "<momo-memory source=" ++ [34%N] ++ js "team-decisions" ++ [34%N]
    ++ js ">" ++ [10%N] ++ context ++ [10%N] ++ js "</momo-memory>".

Record RecallRun : Type := {
  run_result : HookResult;
  run_query : option ContextQuery;
  run_logs : list RecallLog
}.

Section RecallHook.

(** The case tables of [toLowerCase] and the context API are parameters. *)
Variable toLowerCase : JSString -> JSString.
Variable contextApi : ContextQuery -> ContextOutcome.

Definition before_agent_start (event : RecallEvent) : RecallRun :=
  let userMessage := selectUserMessage event in
  if shouldConsultMemory toLowerCase userMessage then
    let q := {| q_query := firstn 500 userMessage;
                q_maxTokens := js "2000" |} in
    let check := InfoRecallCheck (firstn 80 userMessage) in
    match contextApi q with
    | ContextResolved (Some (c :: context)) d =>
        if (0 <? d)%Z
        then {| run_result := PrependContext (wrapContext (c :: context));
                run_query := Some q;
                run_logs := [check; InfoRecallInject d] |}
        else {| run_result := NoContext; run_query := Some q;
                run_logs := [check] |}
    | ContextResolved _ _ =>
        {| run_result := NoContext; run_query := Some q;
           run_logs := [check] |}
    | ContextRejected =>
        {| run_result := NoContext; run_query := Some q;
           run_logs := [check; WarnRecallFailed] |}
    end
  else {| run_result := NoContext; run_query := None; run_logs := [] |}.

End RecallHook.

(** ** The [status] command: the count of buffered messages

    [Array.from(messageBuffers.values())] reduced with
    [(sum, buf) => sum + buf.length] from 0; the line is printed, with
    [messageBuffers.size], when the count is positive. *)
Definition totalBuffered (m : BufferMap) : nat :=
  fold_left (fun sum e => sum + length (snd e)) m 0.

Definition statusBufferLine (st : State) : option (nat * nat) :=
  if 0 <? totalBuffered (messageBuffers st)
  then Some (totalBuffered (messageBuffers st), length (messageBuffers st))
  else None.

(** ** Predicates on states and events used in the statements below *)

(** What the [agent_end] hook requires of a message before buffering it. *)
Definition qualified (m : BufferedMessage) : Prop := 5 < length (content m).

(** Every buffer of the store holds something, and only qualified
    messages. *)
Definition store_ok (st : State) : Prop :=
  forall k b, Map_get k (messageBuffers st) = Some b ->
              b ≠ [] /\ Forall qualified b.

Definition request_ok (r : Request) : Prop :=
  4 <= length (req_messages r)
  /\ req_source r = js "openclaw"
  /\ Forall qualified (req_messages r).


Definition event_messages (event : Event) : list EventMessage :=
  match messages event with Some ms => ms | None => [] end.

(** ** Sample inputs *)

(** The [i]-th sample message: role alternating from [user], content
    ["message "] followed by the [i]-th capital letter. *)
Definition sample_message (i : nat) : EventMessage :=
  {| msg_role := if Nat.even i then js "user" else js "assistant";
     msg_content := ContentString (js "message " ++ [N.of_nat (65 + i)]) |}.

(** An event of channel [chan] carrying [n] sample messages. *)
Definition sample_event (chan : string) (n : nat) : Event :=
  {| session := Some {| channelId := Some (js chan); session_id := None |};
     messages := Some (map sample_message (seq 0 n)) |}.

Definition sample_now : JSString := js "2026-01-01T00:00:00.000Z".

Definition always_ok : Request -> Outcome := fun _ => Resolved 1.
Definition always_fail : Request -> Outcome := fun _ => Rejected.


(** Two channels, ["a"] with 5 messages and ["b"] with 2, each with its
    timer pending. *)
Definition two_channels : State :=
  agent_end always_ok sample_now (sample_event "b" 2)
    (agent_end always_ok sample_now (sample_event "a" 5) initial).

(** An event of channel ["a"] with nothing to buffer: a short user message
    and a message of another role. *)
Definition unqualified_event : Event :=
  {| session := Some {| channelId := Some (js "a"); session_id := None |};
     messages :=
       Some [ {| msg_role := js "user"; msg_content := ContentString (js "ok") |};
              {| msg_role := js "system";
                 msg_content := ContentString (js "You are a helpful agent.") |} ] |}.

(** ** [toolNameToLabel] *)

(** [s.split(sep)] for a separator of one code unit: never empty. *)
Fixpoint splitOn (sep : N) (s : JSString) : list JSString :=
  match s with
  | [] => [[]]
  | c :: s' =>
      if (c =? sep)%N then [] :: splitOn sep s'
      else match splitOn sep s' with
           | p :: ps => (c :: p) :: ps
           | [] => [[c]]
           end
  end.

Definition prefixMap : list (JSString * JSString) :=
  [ (js "gmail", js "Gmail"); (js "notion", js "Notion");
    (js "github", js "GitHub"); (js "linear", js "Linear");
    (js "slack", js "Slack"); (js "discord", js "Discord");
    (js "momo", js "Momo") ].

Fixpoint ownProperty (k : JSString) (table : list (JSString * JSString))
    : option JSString :=
  match table with
  | [] => None
  | (k', v) :: table' => if decide (k' = k) then Some v else ownProperty k table'
  end.

(** The properties that an object literal inherits from [Object.prototype]
    and whose names have no underscore. [prefixMap[parts[0]]] finds them
    when [parts[0]] is not a key of the literal; the value is then a
    function, and the label its source text, which is not modelled. *)
Definition inheritedProperties : list JSString :=
  map js [ "constructor"; "hasOwnProperty"; "isPrototypeOf";
           "propertyIsEnumerable"; "toLocaleString"; "toString";
           "valueOf" ]%string.

(** [String.prototype.toUpperCase] on Basic Latin input. *)
Definition toUpperCaseLatin (s : JSString) : JSString :=
  map (fun c => if ((97 <=? c) && (c <=? 122))%N then (c - 32)%N else c) s.

Section ToolLabel.

(** The case tables of the runtime, applied to [w.charAt(0)]. *)
Variable toUpperCase : JSString -> JSString.

(** [w.charAt(0).toUpperCase() + w.slice(1)] *)
Definition capitalize (w : JSString) : JSString :=
  toUpperCase (firstn 1 w) ++ skipn 1 w.

(** [None] stands for the inherited-property case described above. *)
Definition toolNameToLabel (name : JSString) : option JSString :=
  let parts := splitOn 95 name in
  let first := hd [] parts in
  let rest := join (js " ") (map capitalize (tl parts)) in
  match ownProperty first prefixMap with
  | Some label => Some (label ++ js ": " ++ rest)
  | None =>
      if bool_decide (first ∈ inheritedProperties) then None
      else Some (first ++ js ": " ++ rest)
  end.

End ToolLabel.

(** ** [resolveConfig] and what [register] registers *)

(** A value of the plugin configuration read with [!== false]. *)
Inductive ConfigFlag : Type :=
| FlagMissing
| FlagBool (b : bool)
| FlagOther.

Record PluginConfig : Type := {
  cfg_apiKey : option JSString;
  cfg_apiUrl : option JSString;
  cfg_autoCapture : ConfigFlag;
  cfg_autoRecall : ConfigFlag
}.

(** [process.env.MOMO_API_KEY] and [process.env.MOMO_API_URL] *)
Record Environment : Type := {
  env_apiKey : option JSString;
  env_apiUrl : option JSString
}.

Record MomoConfig : Type := {
  apiKey : JSString;
  apiUrl : JSString;
  autoCapture : bool;
  autoRecall : bool
}.

(** [a || b || fallback] on strings. *)
Definition firstTruthy (a b : option JSString) (fallback : JSString)
    : JSString :=
  match truthy a with
  | Some x => x
  | None => match truthy b with Some y => y | None => fallback end
  end.

(** [v !== false] *)
Definition notFalse (v : ConfigFlag) : bool :=
  match v with FlagBool false => false | _ => true end.

Definition resolveConfig (pluginConfig : PluginConfig) (env : Environment)
    : MomoConfig :=
  {| apiKey := firstTruthy (cfg_apiKey pluginConfig) (env_apiKey env) [];
     apiUrl := firstTruthy (cfg_apiUrl pluginConfig) (env_apiUrl env)
                 (js "https://app.usemomo.com");
     autoCapture := notFalse (cfg_autoCapture pluginConfig);
     autoRecall := notFalse (cfg_autoRecall pluginConfig) |}.

(** The names given to [api.registerTool] by the seven literal calls of
    [register], in their order. *)
Definition builtinTools : list JSString :=
  map js [ "momo_search"; "momo_store"; "momo_context"; "momo_summary";
           "momo_schedule"; "momo_list_schedules"; "momo_cancel_schedule"
         ]%string.

(** The set [momoToolNames] of the dynamic registration. *)
Definition momoToolNames : list JSString :=
  map js [ "momo_search"; "momo_store"; "momo_context"; "momo_summary";
           "momo_schedule"; "momo_list_schedules"; "momo_cancel_schedule"
         ]%string.

(** How [GET /api/ext/capabilities] ends, with the fields of the answer
    that decide what is registered: [success] and the names of [tools]
    ([None] when [tools] is missing). *)
Inductive CapsOutcome : Type :=
| CapsResolved (success : bool) (tools : option (list JSString))
| CapsRejected.

(** The loop [for (const tool of caps.tools)]: the names registered. *)
Definition integrationTools (caps : CapsOutcome) : list JSString :=
  match caps with
  | CapsResolved true (Some (t :: tools)) =>
      List.filter (fun name => negb (bool_decide (name ∈ momoToolNames)))
        (t :: tools)
  | _ => []
  end.

(** What a call of [register] has registered when it returns: tool names
    and hook names in the order of the calls, the CLI and the service. The
    bodies of the tools and of the CLI commands are left out. *)
Record Registration : Type := {
  reg_tools : list JSString;
  reg_hooks : list JSString;
  reg_cli : bool;
  reg_service : bool
}.

Definition register (config : MomoConfig) (caps : CapsOutcome)
    : Registration :=
  match apiKey config with
  | [] => {| reg_tools := []; reg_hooks := []; reg_cli := false;
             reg_service := false |}
  | _ =>
      {| reg_tools := builtinTools ++ integrationTools caps;
         reg_hooks :=
           (if autoRecall config then [js "before_agent_start"] else [])
           ++ (if autoCapture config then [js "agent_end"] else []);
         reg_cli := true;
         reg_service := true |}
  end.

(** ** The words of [casualPatterns], by pattern *)

Definition greetingWords : list string :=
  ["hi"; "hey"; "hello"; "yo"; "sup"; "hola"; "howdy"; "hiya"; "heya"]%string.
Definition dayParts : list string :=
  ["morning"; "afternoon"; "evening"; "night"]%string.
Definition thanksWords : list string :=
  ["thanks"; "thank you"; "thx"; "ty"]%string.
Definition ackWords : list string :=
  ["ok"; "okay"; "sure"; "got it"; "sounds good"; "cool"; "nice"; "great";
   "awesome"; "perfect"]%string.
Definition farewellWords : list string :=
  ["bye"; "goodbye"; "see you"; "later"; "gn"; "ttyl"]%string.
Definition yesNoWords : list string :=
  ["yes"; "no"; "yep"; "nope"; "yeah"; "nah"]%string.
Definition smallTalkWords : list string :=
  ["how are you"; "what's up"; "whats up"; "wassup"]%string.

(** The openers that must end at a word boundary. *)
Definition openerWords : list string :=
  greetingWords ++ thanksWords ++ ackWords ++ farewellWords ++ yesNoWords
    ++ smallTalkWords.

(** The openers of the seventh pattern, which has no [\b]. *)
Definition laughOpeners : list JSString :=
  [ js "lol"; js "lmao"; js "haha"; js "heh";
    [55357; 56834]%N; [55357; 56397]%N; [55357; 56911]%N ].

Definition allSpace (sp : JSString) : Prop :=
  Forall (fun c => isSpace c = true) sp.

(** A word after which [\b] asks for a non-word character. *)
Definition endsInWordChar (w : string) : Prop :=
  js w ≠ [] /\ isWordAt (last_or None (js w)) = true.

(** ** Sample inputs of the recall hook *)

Definition sample_question : JSString :=
  js "What did we decide about the AWS migration budget last quarter?".

Definition sample_recall_event : RecallEvent :=
  {| recall_messages :=
       Some [ {| msg_role := js "user";
                 msg_content := ContentString (js "Hello there") |};
              {| msg_role := js "assistant";
                 msg_content := ContentString (js "Hi! How can I help?") |};
              {| msg_role := js "user";
                 msg_content := ContentString sample_question |};
              {| msg_role := js "assistant";
                 msg_content := ContentString (js "Let me check.") |} ];
     recall_prompt := Some (js "the flat prompt") |}.

Definition sample_context_api : ContextQuery -> ContextOutcome :=
  fun _ => ContextResolved (Some (js "Budget approved at 40k.")) 2.

(** * Properties *)

(** ** The insertion-ordered map *)

Section BufferMapFacts.
Implicit Types (k : JSString) (v : list BufferedMessage) (m : BufferMap).

Lemma Map_get_set_eq k v m : Map_get k (Map_set k v m) = Some v.
Proof.
  induction m as [|[k' v'] m IH]; simpl.
  - by rewrite decide_True.
  - case_decide; simpl; [by rewrite decide_True | by rewrite decide_False].
Qed.

Lemma Map_get_set_ne k k' v m :
  k ≠ k' -> Map_get k' (Map_set k v m) = Map_get k' m.
Proof.
  intros Hne. induction m as [|[k0 v0] m IH]; simpl.
  - by rewrite decide_False.
  - destruct (decide (k0 = k)) as [->|]; simpl.
    + by rewrite !decide_False.
    + by rewrite IH.
Qed.

Lemma Map_get_delete_eq k m : Map_get k (Map_delete k m) = None.
Proof.
  induction m as [|[k' v'] m IH]; simpl; [done|].
  case_decide; simpl; [done | by rewrite decide_False].
Qed.

Lemma Map_get_delete_ne k k' m :
  k ≠ k' -> Map_get k' (Map_delete k m) = Map_get k' m.
Proof.
  intros Hne. induction m as [|[k0 v0] m IH]; simpl; [done|].
  destruct (decide (k0 = k)) as [->|]; simpl.
  - by rewrite decide_False.
  - by rewrite IH.
Qed.

Lemma Map_get_None k m : Map_get k m = None <-> k ∉ Map_keys m.
Proof.
  induction m as [|[k' v'] m IH]; simpl.
  - split; [intros _; apply not_elem_of_nil | done].
  - rewrite not_elem_of_cons. case_decide; subst.
    + split; [done | intros [? _]; done].
    + rewrite IH. split; [by intros ?; split; [congruence|] | by intros [_ ?]].
Qed.

Lemma Map_get_Some_elem k v m : Map_get k m = Some v -> (k, v) ∈ m.
Proof.
  induction m as [|[k' v'] m IH]; simpl; [done|].
  case_decide; subst.
  - intros [= ->]. apply list_elem_of_here.
  - intros ?. apply list_elem_of_further. auto.
Qed.

Lemma Map_delete_absent k m : k ∉ Map_keys m -> Map_delete k m = m.
Proof.
  induction m as [|[k' v'] m IH]; simpl; [done|].
  rewrite not_elem_of_cons. intros [Hne Hnin].
  rewrite decide_False by done. by rewrite IH.
Qed.

Lemma Map_keys_delete k m :
  Map_keys (Map_delete k m) = filter (fun k' => k' ≠ k) (Map_keys m).
Proof.
  induction m as [|[k' v'] m IH]; simpl; [done|].
  rewrite filter_cons. simpl. case_decide; subst.
  - by rewrite decide_False by (intros ?; done).
  - rewrite decide_True by done. simpl. by rewrite IH.
Qed.

Lemma Map_keys_set k v m :
  Map_keys (Map_set k v m) =
  if Map_has k m then Map_keys m else Map_keys m ++ [k].
Proof.
  unfold Map_has. induction m as [|[k' v'] m IH]; simpl; [done|].
  case_decide; subst; simpl; [done|].
  rewrite IH. by destruct (Map_get k m).
Qed.

Lemma Map_delete_NoDup k m :
  NoDup (Map_keys m) -> NoDup (Map_keys (Map_delete k m)).
Proof. rewrite Map_keys_delete. apply NoDup_filter. Qed.

Lemma Map_set_NoDup k v m :
  NoDup (Map_keys m) -> NoDup (Map_keys (Map_set k v m)).
Proof.
  intros Hnd. rewrite Map_keys_set. unfold Map_has.
  destruct (Map_get k m) eqn:Hg; [done|].
  apply NoDup_app. split_and!; [done | | apply NoDup_singleton].
  intros x Hx Hx'. apply list_elem_of_singleton in Hx'. subst.
  by apply Map_get_None in Hg.
Qed.

End BufferMapFacts.

(** ** [flushBuffer] *)

Section FlushFacts.
Implicit Types (k : JSString) (st : State) (o : Outcome).

Lemma flushBuffer_end_buffers k o st :
  messageBuffers (flushBuffer_end k o st) = Map_delete k (messageBuffers st).
Proof. unfold flushBuffer_end. destruct o as [d|]; try case_match; done. Qed.

Lemma flushBuffer_end_requests k o st :
  requests (flushBuffer_end k o st) = requests st.
Proof. unfold flushBuffer_end. destruct o as [d|]; try case_match; done. Qed.

Lemma flushBuffer_end_timers k o st :
  silenceTimers (flushBuffer_end k o st) = silenceTimers st
  /\ pendingTimers (flushBuffer_end k o st) = pendingTimers st
  /\ nextHandle (flushBuffer_end k o st) = nextHandle st.
Proof. unfold flushBuffer_end. destruct o as [d|]; try case_match; done. Qed.

Lemma flushBuffer_begin_small k st :
  length (buffer_of k st) < 4 ->
  flushBuffer_begin k st = (with_buffers (Map_delete k) st, None).
Proof.
  unfold buffer_of, flushBuffer_begin. intros Hlen.
  destruct (Map_get k (messageBuffers st)) as [msgs|]; [|done].
  by rewrite (proj2 (Nat.ltb_lt _ _) Hlen).
Qed.

Lemma flushBuffer_begin_large k st msgs :
  Map_get k (messageBuffers st) = Some msgs ->
  4 <= length msgs ->
  flushBuffer_begin k st =
    (send (mkRequest k msgs) st, Some (mkRequest k msgs)).
Proof.
  unfold flushBuffer_begin. intros -> Hlen.
  by rewrite (proj2 (Nat.ltb_ge _ _) Hlen).
Qed.

Lemma flushBuffer_timers extract k st :
  silenceTimers (flushBuffer extract k st) = silenceTimers st
  /\ pendingTimers (flushBuffer extract k st) = pendingTimers st
  /\ nextHandle (flushBuffer extract k st) = nextHandle st.
Proof.
  unfold flushBuffer, flushBuffer_begin.
  destruct (Map_get k (messageBuffers st)) as [msgs|]; [|done].
  destruct (length msgs <? 4); [done|].
  apply (flushBuffer_end_timers k _ (send (mkRequest k msgs) st)).
Qed.

Lemma flushBuffer_buffers extract k st :
  messageBuffers (flushBuffer extract k st) = Map_delete k (messageBuffers st).
Proof.
  unfold flushBuffer, flushBuffer_begin.
  destruct (Map_get k (messageBuffers st)) as [msgs|]; [|done].
  destruct (length msgs <? 4); [done|].
  apply (flushBuffer_end_buffers k _ (send (mkRequest k msgs) st)).
Qed.

End FlushFacts.

(** C6. A flush of a key whose buffer holds fewer than 4 messages, a
    missing buffer included, sends nothing to the extraction API and leaves
    the store without the key; the other entries keep their order. *)
Theorem flush_below_floor_discards (extract : Request -> Outcome)
    (k : JSString) (st : State) :
  length (buffer_of k st) < 4 ->
  snd (flushBuffer_begin k st) = None
  /\ requests (flushBuffer extract k st) = requests st
  /\ Map_get k (messageBuffers (flushBuffer extract k st)) = None
  /\ (k ∉ Map_keys (messageBuffers (flushBuffer extract k st)))
  /\ messageBuffers (flushBuffer extract k st)
     = Map_delete k (messageBuffers st).
Proof.
  intros Hlen. unfold flushBuffer.
  rewrite (flushBuffer_begin_small _ _ Hlen). simpl.
  split_and!; try done.
  - apply Map_get_delete_eq.
  - apply Map_get_None, Map_get_delete_eq.
Qed.

Lemma flush_below_floor_discards_witness :
  requests (flushBuffer always_ok (js "b")
              (agent_end always_ok sample_now (sample_event "b" 2) initial))
    = []
  /\ messageBuffers (flushBuffer always_ok (js "b")
        (agent_end always_ok sample_now (sample_event "b" 2) initial)) = [].
Proof.
  destruct (flush_below_floor_discards always_ok (js "b")
              (agent_end always_ok sample_now (sample_event "b" 2) initial))
    as (_ & Hreq & _ & _ & Hbuf).
  - vm_compute. lia.
  - split; [rewrite Hreq | rewrite Hbuf]; reflexivity.
Defined.



(** Whatever the key [flushBuffer] is called with becomes the [channel]
    field of the request; the timer callback and the stop handler call it
    with the channel key. *)
Lemma flushBuffer_begin_request_fields (k : JSString) (st st' : State)
    (r : Request) :
  flushBuffer_begin k st = (st', Some r) ->
  req_channel r = k /\ req_source r = js "openclaw"
  /\ Map_get k (messageBuffers st) = Some (req_messages r).
Proof.
  unfold flushBuffer_begin.
  destruct (Map_get k (messageBuffers st)) as [msgs|]; [|done].
  destruct (length msgs <? 4); [done|]. by intros [= _ <-].
Qed.

Lemma timer_request_channel (h : nat) (k k' : JSString) (st st' : State)
    (r : Request) :
  pendingTimers st !! h = Some k ->
  timer_fire_begin h st = (st', Some (k', r)) ->
  k' = k /\ req_channel r = k /\ req_source r = js "openclaw".
Proof.
  intros Hp. unfold timer_fire_begin. rewrite Hp.
  destruct (flushBuffer_begin k (timer_prologue h k st)) as [st1 [r1|]] eqn:Hb;
    [|done].
  intros [= _ <- <-].
  by destruct (flushBuffer_begin_request_fields _ _ _ _ Hb) as (? & ? & _).
Qed.

(** ** The [agent_end] hook *)

Section AgentEndFacts.
Implicit Types (k : JSString) (st : State) (new : list BufferedMessage).

Lemma tempKey_ne k : tempKey k ≠ k.
Proof.
  unfold tempKey. intros Heq.
  assert (Hnil : js "__flush" = []); [|done].
  apply (app_inv_head k). by rewrite app_nil_r.
Qed.

Lemma buffer_of_append k new st :
  buffer_of k (append k new st) = buffer_of k st ++ new.
Proof.
  unfold append, buffer_of, Map_has. simpl.
  destruct (Map_get k (messageBuffers st)) as [b|] eqn:Hg; simpl.
  - by rewrite Map_get_set_eq, Hg.
  - by rewrite !Map_get_set_eq.
Qed.

Lemma append_other_fields k new st :
  silenceTimers (append k new st) = silenceTimers st
  /\ pendingTimers (append k new st) = pendingTimers st
  /\ nextHandle (append k new st) = nextHandle st
  /\ requests (append k new st) = requests st.
Proof. unfold append. by destruct (Map_has k (messageBuffers st)). Qed.

Lemma clearSilenceTimer_fields k st :
  messageBuffers (clearSilenceTimer k st) = messageBuffers st
  /\ silenceTimers (clearSilenceTimer k st) = silenceTimers st
  /\ nextHandle (clearSilenceTimer k st) = nextHandle st
  /\ requests (clearSilenceTimer k st) = requests st.
Proof. unfold clearSilenceTimer. by destruct (silenceTimers st !! k). Qed.

Lemma buffer_of_clearSilenceTimer k k' st :
  buffer_of k' (clearSilenceTimer k st) = buffer_of k' st.
Proof.
  unfold buffer_of. by rewrite (proj1 (clearSilenceTimer_fields k st)).
Qed.

Lemma prepared_requests k new st :
  requests (clearSilenceTimer k (append k new st)) = requests st.
Proof.
  destruct (clearSilenceTimer_fields k (append k new st)) as (_&_&_&->).
  apply append_other_fields.
Qed.

Lemma length_slice_last {A} (n : nat) (l : list A) :
  n <= length l -> length (slice_last n l) = n.
Proof. unfold slice_last. rewrite length_skipn. lia. Qed.

Lemma slice_last_suffix {A} (n : nat) (l : list A) :
  l = firstn (length l - n) l ++ slice_last n l.
Proof. unfold slice_last. by rewrite firstn_skipn. Qed.

(** The overflow branch, up to the suspension of the hook. *)
Lemma agent_end_begin_overflow now event st :
  let k := getChannelKey event in
  let new := newMessages now event in
  let buffer := buffer_of k st ++ new in
  new ≠ [] ->
  MAX_BUFFER_SIZE <= length buffer ->
  agent_end_begin now event st =
    (send (mkRequest (tempKey k) buffer)
       (with_buffers (Map_set (tempKey k) buffer)
          (with_buffers (Map_set k (slice_last 4 buffer))
             (log (InfoBufferFull (length buffer))
                (clearSilenceTimer k (append k new st))))),
     Some (tempKey k, mkRequest (tempKey k) buffer)).
Proof.
  intros k new buffer Hnew Hlen. unfold agent_end_begin.
  fold k. fold new.
  assert (Hbuf : buffer_of k st ++ new = buffer) by done.
  clearbody buffer new k. destruct new as [|m new']; [done|].
  rewrite buffer_of_clearSilenceTimer, buffer_of_append, Hbuf.
  rewrite (proj2 (Nat.leb_le _ _) Hlen).
  unfold overflow_begin.
  rewrite buffer_of_clearSilenceTimer, buffer_of_append, Hbuf.
  erewrite flushBuffer_begin_large; [done| |].
  - simpl. apply Map_get_set_eq.
  - unfold MAX_BUFFER_SIZE in Hlen. lia.
Qed.

(** The other branch: the hook ends without suspending. *)
Lemma agent_end_begin_below now event st :
  let k := getChannelKey event in
  let new := newMessages now event in
  new ≠ [] ->
  length (buffer_of k st ++ new) < MAX_BUFFER_SIZE ->
  agent_end_begin now event st =
    (armSilenceTimer k (clearSilenceTimer k (append k new st)), None).
Proof.
  intros k new Hnew Hlen. unfold agent_end_begin.
  fold k. fold new. clearbody new k. destruct new as [|m new']; [done|].
  rewrite buffer_of_clearSilenceTimer, buffer_of_append.
  by rewrite (proj2 (Nat.leb_gt _ _) Hlen).
Qed.

(** Registration order: an append to a key of the store leaves the order
    of the keys as it is, an append to a new key puts it last. *)
Lemma append_keys k new st :
  Map_keys (messageBuffers (append k new st)) =
  if Map_has k (messageBuffers st) then Map_keys (messageBuffers st)
  else Map_keys (messageBuffers st) ++ [k].
Proof.
  unfold append. destruct (Map_has k (messageBuffers st)) eqn:Hhas; simpl.
  - by rewrite Map_keys_set, Hhas.
  - rewrite !Map_keys_set, Hhas. unfold Map_has.
    by rewrite Map_get_set_eq.
Qed.

Lemma Map_get_append k k' new st :
  Map_get k' (messageBuffers (append k new st)) =
  if decide (k = k') then Some (buffer_of k st ++ new)
  else Map_get k' (messageBuffers st).
Proof.
  destruct (decide (k = k')) as [<-|Hne].
  - unfold append, buffer_of, Map_has.
    destruct (Map_get k (messageBuffers st)) as [b|] eqn:Hg; simpl.
    + by rewrite Map_get_set_eq, Hg.
    + by rewrite !Map_get_set_eq.
  - unfold append, Map_has.
    destruct (Map_get k (messageBuffers st)); simpl;
      by rewrite !Map_get_set_ne by done.
Qed.


End AgentEndFacts.

(** C1, as amended. When an append brings a channel's buffer to
    [MAX_BUFFER_SIZE] messages or more, the hook sends a request before it
    yields, without any timer step, and the batch is the whole buffer: the
    messages before the overlap point followed by the last 4, which are
    also kept as the channel's live buffer. *)
Theorem overflow_flushes_whole_buffer (now : JSString) (event : Event)
    (st : State) :
  let k := getChannelKey event in
  let new := newMessages now event in
  let buffer := buffer_of k st ++ new in
  new ≠ [] ->
  MAX_BUFFER_SIZE <= length buffer ->
  exists st' r,
    agent_end_begin now event st = (st', Some (tempKey k, r))
    /\ requests st' = requests st ++ [r]
    /\ req_messages r = buffer
    /\ req_messages r
       = firstn (length buffer - 4) buffer ++ slice_last 4 buffer
    /\ Map_get k (messageBuffers st') = Some (slice_last 4 buffer).
Proof.
  intros k new buffer Hnew Hlen.
  eexists _, _. split; [by apply agent_end_begin_overflow|].
  split_and!; try done.
  - simpl. by rewrite prepared_requests.
  - apply slice_last_suffix.
  - simpl. rewrite Map_get_set_ne by (apply tempKey_ne).
    apply Map_get_set_eq.
Qed.

Lemma overflow_flushes_whole_buffer_witness :
  exists st' r,
    agent_end_begin sample_now (sample_event "c" 20) initial
      = (st', Some (tempKey (js "c"), r))
    /\ requests st' = [r]
    /\ length (req_messages r) = 20.
Proof.
  destruct (overflow_flushes_whole_buffer sample_now (sample_event "c" 20)
              initial) as (st' & r & Hrun & Hreq & Hmsgs & _).
  - vm_compute. discriminate.
  - vm_compute. lia.
  - exists st', r. split_and!; [exact Hrun | exact Hreq |].
    rewrite Hmsgs. reflexivity.
Defined.

(** C1 as stated fails: 20 messages appended to an empty channel are all
    sent, not only the first 16. *)
Lemma overflow_batch_is_not_first_16 :
  exists st' r,
    agent_end_begin sample_now (sample_event "c" 20) initial
      = (st', Some (tempKey (js "c"), r))
    /\ length (newMessages sample_now (sample_event "c" 20)) = 20
    /\ req_messages r = newMessages sample_now (sample_event "c" 20)
    /\ req_messages r
       ≠ firstn 16 (newMessages sample_now (sample_event "c" 20)).
Proof.
  eexists _, _. split; [vm_compute; reflexivity|].
  split_and!; [reflexivity | reflexivity |].
  intros Heq. apply (f_equal length) in Heq. vm_compute in Heq. discriminate.
Qed.

(** C3, at the failing input. The overflow flush of channel ["c"] sends a
    request whose [channel] field is the transient key ["c__flush"], not the
    channel key ["c"]; its [source] is ["openclaw"]. *)
Theorem overflow_request_names_transient_key :
  getChannelKey (sample_event "c" 20) = js "c"
  /\ exists st' r,
       agent_end_begin sample_now (sample_event "c" 20) initial
         = (st', Some (js "c__flush", r))
       /\ requests st' = [r]
       /\ req_source r = js "openclaw"
       /\ req_channel r = js "c__flush"
       /\ req_channel r ≠ getChannelKey (sample_event "c" 20).
Proof.
  split; [reflexivity|].
  eexists _, _. split; [vm_compute; reflexivity|].
  split_and!; try reflexivity. vm_compute. discriminate.
Qed.



(** C10. The overflow check reads the buffer after the whole event has been
    pushed. An event with more than [MAX_BUFFER_SIZE] qualifying messages
    therefore makes the buffer longer than [MAX_BUFFER_SIZE] before anything
    is sent; the request then carries that whole buffer, all the new
    messages at its end. The configuration the event leads to, with the
    call in flight and open to further events, has the same over-long
    buffer in the store, under the transient key. *)
Theorem bulk_push_precedes_overflow_check (now : JSString) (event : Event)
    (st : State) :
  let k := getChannelKey event in
  let new := newMessages now event in
  let buffer := buffer_of k st ++ new in
  MAX_BUFFER_SIZE < length new ->
  buffer_of k (append k new st) = buffer
  /\ requests (append k new st) = requests st
  /\ MAX_BUFFER_SIZE < length buffer
  /\ exists st' r,
       agent_end_begin now event st = (st', Some (tempKey k, r))
       /\ requests st' = requests st ++ [r]
       /\ req_messages r = buffer_of k st ++ new
       /\ MAX_BUFFER_SIZE < length (req_messages r)
       /\ Map_get (tempKey k) (messageBuffers st') = Some buffer
       /\ (forall fl, step (st, fl) (st', fl ++ [tempKey k])).
Proof.
  intros k new buffer Hlen.
  assert (Hbuf : MAX_BUFFER_SIZE < length buffer).
  { unfold buffer. rewrite length_app. lia. }
  assert (Hnew : new ≠ []).
  { intros Hnil. rewrite Hnil in Hlen. simpl in Hlen. lia. }
  split_and!.
  - apply buffer_of_append.
  - apply append_other_fields.
  - done.
  - pose proof (agent_end_begin_overflow now event st Hnew
                  (Nat.lt_le_incl _ _ Hbuf)) as Hrun.
    eexists _, _. split; [exact Hrun|].
    split_and!; try done.
    + simpl. by rewrite prepared_requests.
    + simpl. apply Map_get_set_eq.
    + intros fl. apply (step_agent_end now event st fl _ _ Hrun).
Qed.

Lemma bulk_push_precedes_overflow_check_witness :
  exists st' r,
    agent_end_begin sample_now (sample_event "c" 25) initial
      = (st', Some (tempKey (js "c"), r))
    /\ length (req_messages r) = 25.
Proof.
  destruct (bulk_push_precedes_overflow_check sample_now
              (sample_event "c" 25) initial) as (_ & _ & _ & st' & r & Hrun
                                                 & _ & Hmsgs & _ & _).
  - vm_compute. lia.
  - exists st', r. split; [exact Hrun|]. rewrite Hmsgs. reflexivity.
Defined.

(** ** Well-formed states are preserved *)

Section Invariant.
Implicit Types (k : JSString) (st : State) (h : nat).

Lemma wf_initial : wf initial.
Proof.
  split; [apply NoDup_nil_2|]. split; simpl; intros ??; by rewrite lookup_empty.
Qed.

Lemma wf_same_timers st st' :
  NoDup (Map_keys (messageBuffers st')) ->
  silenceTimers st' = silenceTimers st ->
  pendingTimers st' = pendingTimers st ->
  nextHandle st' = nextHandle st ->
  wf st -> wf st'.
Proof. intros Hnd HT HP Hn [_ Hok]. split; [done|]. by rewrite HT, HP, Hn. Qed.

Lemma timers_ok_unique T P n h1 h2 k :
  timers_ok T P n -> P !! h1 = Some k -> P !! h2 = Some k -> h1 = h2.
Proof.
  intros [Hown _] H1 H2. apply Hown in H1 as [H1 _], H2 as [H2 _]. congruence.
Qed.

Lemma timers_ok_clear T P n h : timers_ok T P n -> timers_ok T (delete h P) n.
Proof.
  intros [Hown Hfresh]. split; [|done].
  intros h' k [_ Hp]%lookup_delete_Some. by apply Hown.
Qed.

(** Clearing the recorded handle of [k] leaves no pending timer for [k]. *)
Lemma timers_ok_cleared T P n k h h' :
  timers_ok T P n -> T !! k = Some h -> delete h P !! h' ≠ Some k.
Proof.
  intros [Hown _] HT [Hne Hp]%lookup_delete_Some.
  apply Hown in Hp as [Hp _]. congruence.
Qed.

Lemma timers_ok_none T P n k h :
  timers_ok T P n -> T !! k = None -> P !! h ≠ Some k.
Proof. intros [Hown _] HT Hp. apply Hown in Hp as [Hp _]. congruence. Qed.

(** Forgetting the entry of [k] once its timer is no longer pending. *)
Lemma timers_ok_forget T P n k :
  (forall h, P !! h ≠ Some k) ->
  timers_ok T P n -> timers_ok (delete k T) P n.
Proof.
  intros Hno [Hown Hfresh]. split.
  - intros h k' Hp. destruct (Hown _ _ Hp) as [HT Hlt]. split; [|done].
    rewrite lookup_delete_ne; [done|]. intros ->. by apply (Hno h).
  - intros k' h [_ HT]%lookup_delete_Some. by apply (Hfresh k').
Qed.

(** Arming a timer for [k] when none is pending for it. *)
Lemma timers_ok_arm T P n k :
  (forall h, P !! h ≠ Some k) ->
  timers_ok T P n -> timers_ok (<[k:=n]> T) (<[n:=k]> P) (S n).
Proof.
  intros Hno [Hown Hfresh]. split.
  - intros h k' [[-> ->]|[Hne Hp]]%lookup_insert_Some.
    + rewrite lookup_insert_eq. split; [done|lia].
    + destruct (Hown _ _ Hp) as [HT Hlt]. split; [|lia].
      rewrite lookup_insert_ne; [done|]. intros ->. by apply (Hno h).
  - intros k' h [[-> <-]|[Hne HT]]%lookup_insert_Some; [lia|].
    apply Hfresh in HT. lia.
Qed.

Lemma clearSilenceTimer_cleared k st h :
  wf st -> pendingTimers (clearSilenceTimer k st) !! h ≠ Some k.
Proof.
  intros [_ Hok]. unfold clearSilenceTimer.
  destruct (silenceTimers st !! k) as [h0|] eqn:HT; simpl.
  - by eapply timers_ok_cleared.
  - by eapply timers_ok_none.
Qed.

Lemma wf_append k new st : wf st -> wf (append k new st).
Proof.
  intros Hwf. destruct (append_other_fields k new st) as (HT & HP & Hn & _).
  apply (wf_same_timers st); try done.
  destruct Hwf as [Hnd _]. unfold append.
  destruct (Map_has k (messageBuffers st)); simpl;
    repeat apply Map_set_NoDup; done.
Qed.

Lemma wf_clearSilenceTimer k st : wf st -> wf (clearSilenceTimer k st).
Proof.
  intros [Hnd Hok]. unfold clearSilenceTimer.
  destruct (silenceTimers st !! k); [|done].
  split; [done|]. simpl. by apply timers_ok_clear.
Qed.

Lemma wf_armSilenceTimer k st :
  (forall h, pendingTimers st !! h ≠ Some k) ->
  wf st -> wf (armSilenceTimer k st).
Proof.
  intros Hno [Hnd Hok]. split; [done|]. simpl. by apply timers_ok_arm.
Qed.

Lemma wf_with_buffers f st :
  (forall m, NoDup (Map_keys m) -> NoDup (Map_keys (f m))) ->
  wf st -> wf (with_buffers f st).
Proof. intros Hf [Hnd Hok]. split; [by apply Hf | done]. Qed.

Lemma wf_log e st : wf st -> wf (log e st).
Proof. by intros [??]. Qed.

Lemma wf_send r st : wf st -> wf (send r st).
Proof. by intros [??]. Qed.

Lemma wf_flushBuffer_begin k st : wf st -> wf (fst (flushBuffer_begin k st)).
Proof.
  intros Hwf. unfold flushBuffer_begin.
  destruct (Map_get k (messageBuffers st)) as [msgs|]; simpl.
  - destruct (length msgs <? 4); simpl.
    + apply wf_with_buffers; [apply Map_delete_NoDup | done].
    + by apply wf_send.
  - apply wf_with_buffers; [apply Map_delete_NoDup | done].
Qed.

Lemma wf_flushBuffer_end k o st : wf st -> wf (flushBuffer_end k o st).
Proof.
  intros Hwf. unfold flushBuffer_end.
  apply wf_with_buffers; [apply Map_delete_NoDup|].
  destruct o as [d|]; [destruct (0 <? d)%Z|]; try done; by apply wf_log.
Qed.

Lemma wf_flushBuffer extract k st : wf st -> wf (flushBuffer extract k st).
Proof.
  intros Hwf. unfold flushBuffer.
  pose proof (wf_flushBuffer_begin k st Hwf) as Hb.
  destruct (flushBuffer_begin k st) as [st1 [r|]]; [|done].
  by apply wf_flushBuffer_end.
Qed.

Lemma wf_agent_end_begin now event st :
  wf st -> wf (fst (agent_end_begin now event st)).
Proof.
  intros Hwf. unfold agent_end_begin.
  destruct (newMessages now event) as [|m new'] eqn:Hn; [done|].
  set (k := getChannelKey event). set (new := m :: new').
  pose proof (wf_clearSilenceTimer k _ (wf_append k new st Hwf)) as Hwf2.
  destruct (MAX_BUFFER_SIZE <=? _).
  - unfold overflow_begin.
    match goal with
    | |- wf (fst (let '(_, _) := flushBuffer_begin ?a ?b in _)) =>
        pose proof (wf_flushBuffer_begin a b) as Hb;
        destruct (flushBuffer_begin a b) as [st3 r]
    end.
    simpl in *. apply Hb.
    repeat (apply wf_with_buffers; [intros ?; apply Map_set_NoDup|]).
    by apply wf_log.
  - simpl. apply wf_armSilenceTimer; [|done].
    intros h. apply clearSilenceTimer_cleared. by apply wf_append.
Qed.

Lemma wf_agent_end extract now event st :
  wf st -> wf (agent_end extract now event st).
Proof.
  intros Hwf. unfold agent_end.
  pose proof (wf_agent_end_begin now event st Hwf) as Hb.
  destruct (agent_end_begin now event st) as [st1 [[k r]|]]; [|done].
  by apply wf_flushBuffer_end.
Qed.

Lemma timer_prologue_cleared h k st h' :
  wf st -> pendingTimers st !! h = Some k ->
  pendingTimers (timer_prologue h k st) !! h' ≠ Some k.
Proof.
  intros [_ Hok] Hp. simpl. eapply timers_ok_cleared; [done|].
  by apply Hok in Hp as [Hp _].
Qed.

Lemma wf_timer_prologue h k st :
  wf st -> pendingTimers st !! h = Some k -> wf (timer_prologue h k st).
Proof.
  intros Hwf Hp. pose proof (timer_prologue_cleared h k st) as Hno.
  destruct Hwf as [Hnd Hok]. split; [done|]. simpl.
  apply timers_ok_forget; [|by apply timers_ok_clear].
  intros h'. by apply (Hno h').
Qed.

Lemma wf_timer_fire_begin h st : wf st -> wf (fst (timer_fire_begin h st)).
Proof.
  intros Hwf. unfold timer_fire_begin.
  destruct (pendingTimers st !! h) as [k|] eqn:Hp; [|done].
  pose proof (wf_flushBuffer_begin k _ (wf_timer_prologue h k st Hwf Hp)) as Hb.
  by destruct (flushBuffer_begin k (timer_prologue h k st)).
Qed.

Lemma wf_stop_body extract k st : wf st -> wf (stop_body extract k st).
Proof.
  intros Hwf. unfold stop_body. apply wf_flushBuffer.
  destruct (silenceTimers st !! k) as [h|] eqn:HT; [|done].
  destruct Hwf as [Hnd Hok]. split; [done|]. simpl.
  apply timers_ok_forget; [|by apply timers_ok_clear].
  intros h'. by eapply timers_ok_cleared.
Qed.

Lemma wf_stop_loop extract keys st :
  wf st -> wf (stop_loop extract keys st).
Proof.
  revert st. induction keys as [|k keys IH]; intros st Hwf; [done|].
  simpl. by apply IH, wf_stop_body.
Qed.

Lemma wf_stop extract st : wf st -> wf (stop extract st).
Proof. intros Hwf. by apply wf_log, wf_stop_loop. Qed.

Lemma wf_step c c' : step c c' -> wf (fst c) -> wf (fst c').
Proof.
  intros Hstep. destruct Hstep as [now event st fl st' r Hrun
    | h k st fl st' r Hp Hrun | k o st fl1 fl2 | extract st fl]; simpl.
  - intros Hwf. apply (wf_agent_end_begin now event) in Hwf.
    by rewrite Hrun in Hwf.
  - intros Hwf. apply (wf_timer_fire_begin h) in Hwf. by rewrite Hrun in Hwf.
  - apply wf_flushBuffer_end.
  - apply wf_stop.
Qed.

Lemma wf_reachable c : reachable c -> wf (fst c).
Proof.
  unfold reachable. intros Hrtc.
  eapply (rtc_ind_r (fun c => wf (fst c))); [| |exact Hrtc].
  - apply wf_initial.
  - intros c1 c2 _ Hstep Hwf. by eapply wf_step.
Qed.

End Invariant.

(** ** Timers *)

Section TimerFacts.
Implicit Types (k : JSString) (st : State) (h : nat).

Lemma prepared_pending k new st :
  pendingTimers (clearSilenceTimer k (append k new st)) =
  match silenceTimers st !! k with
  | Some h => delete h (pendingTimers st)
  | None => pendingTimers st
  end.
Proof.
  destruct (append_other_fields k new st) as (HT & HP & _).
  unfold clearSilenceTimer. rewrite HT.
  destruct (silenceTimers st !! k) as [h|]; [|done].
  change (delete h (pendingTimers (append k new st))
          = delete h (pendingTimers st)).
  by rewrite HP.
Qed.

Lemma prepared_table k new st :
  silenceTimers (clearSilenceTimer k (append k new st)) = silenceTimers st
  /\ nextHandle (clearSilenceTimer k (append k new st)) = nextHandle st.
Proof.
  destruct (append_other_fields k new st) as (HT & _ & Hn & _).
  destruct (clearSilenceTimer_fields k (append k new st)) as (_ & -> & -> & _).
  done.
Qed.

(** The response to the in-flight call does not touch the timers. *)
Lemma agent_end_timers extract now event st :
  silenceTimers (agent_end extract now event st)
    = silenceTimers (fst (agent_end_begin now event st))
  /\ pendingTimers (agent_end extract now event st)
     = pendingTimers (fst (agent_end_begin now event st)).
Proof.
  unfold agent_end.
  destruct (agent_end_begin now event st) as [st1 [[k r]|]]; [|done].
  by destruct (flushBuffer_end_timers k (extract r) st1) as (-> & -> & _).
Qed.

End TimerFacts.

(** C4, as amended. An event that appends at least one qualifying message
    always cancels the timer recorded for the channel. If the buffer stays
    below [MAX_BUFFER_SIZE], a fresh timer is armed and is the channel's
    live pending timer. If the buffer reaches [MAX_BUFFER_SIZE], the
    buffer is flushed at once and no timer is armed: the channel is left
    without a pending timer. *)
Theorem append_rearms_timer_below_max (extract : Request -> Outcome)
    (now : JSString) (event : Event) (st : State) :
  let k := getChannelKey event in
  let new := newMessages now event in
  let buffer := buffer_of k st ++ new in
  let st' := agent_end extract now event st in
  wf st ->
  new ≠ [] ->
  (forall h0, silenceTimers st !! k = Some h0 ->
              pendingTimers st' !! h0 = None)
  /\ (length buffer < MAX_BUFFER_SIZE ->
      pendingTimers st !! nextHandle st = None
      /\ silenceTimers st' !! k = Some (nextHandle st)
      /\ pendingTimers st' !! nextHandle st = Some k)
  /\ (MAX_BUFFER_SIZE <= length buffer ->
      forall h, pendingTimers st' !! h ≠ Some k).
Proof.
  intros k new buffer st' Hwf Hnew.
  destruct (agent_end_timers extract now event st) as [HT HP].
  fold st' in HT, HP.
  destruct (prepared_table k new st) as [HT2 Hn2].
  pose proof (prepared_pending k new st) as HP2.
  destruct Hwf as [Hnd [Hown Hfresh]].
  assert (Hnone : pendingTimers st !! nextHandle st = None).
  { destruct (pendingTimers st !! nextHandle st) as [k0|] eqn:Hp; [|done].
    apply Hown in Hp as [_ Hlt]. lia. }
  destruct (decide (length buffer < MAX_BUFFER_SIZE)) as [Hlt|Hge].
  - rewrite (agent_end_begin_below now event st Hnew Hlt) in HT, HP.
    fold k new in HT, HP. simpl in HT, HP. rewrite HT2, Hn2 in HT.
    rewrite Hn2, HP2 in HP. split_and!.
    + intros h0 Hh0. rewrite HP, Hh0.
      rewrite lookup_insert_ne by (apply Hfresh in Hh0; lia).
      apply lookup_delete_eq.
    + intros _. rewrite HT, HP. by rewrite !lookup_insert_eq.
    + intros Hge. lia.
  - assert (Hle : MAX_BUFFER_SIZE <= length buffer) by lia.
    rewrite (agent_end_begin_overflow now event st Hnew Hle) in HT, HP.
    fold k new in HT, HP. simpl in HT, HP. rewrite HP2 in HP. split_and!.
    + intros h0 Hh0. rewrite HP, Hh0. apply lookup_delete_eq.
    + intros Hlt. lia.
    + intros _ h. rewrite HP.
      destruct (silenceTimers st !! k) as [h0|] eqn:Hh0.
      * by eapply timers_ok_cleared.
      * by eapply timers_ok_none.
Qed.

Lemma append_rearms_timer_below_max_witness :
  silenceTimers (agent_end always_ok sample_now (sample_event "c" 5) initial)
    !! js "c" = Some 0
  /\ pendingTimers (agent_end always_ok sample_now (sample_event "c" 5)
                      initial) !! 0 = Some (js "c").
Proof.
  destruct (append_rearms_timer_below_max always_ok sample_now
              (sample_event "c" 5) initial) as (_ & Hbelow & _).
  - apply wf_initial.
  - vm_compute. discriminate.
  - apply Hbelow. vm_compute. lia.
Defined.

(** C4 as stated fails: an event that appends 20 qualifying messages to an
    empty channel leaves no pending timer at all, neither while the
    extraction call is in flight nor after it. *)
Lemma overflow_leaves_no_timer :
  length (newMessages sample_now (sample_event "c" 20)) = 20
  /\ pendingTimers (fst (agent_end_begin sample_now (sample_event "c" 20)
                           initial)) = ∅
  /\ pendingTimers (agent_end always_ok sample_now (sample_event "c" 20)
                      initial) = ∅.
Proof. split_and!; reflexivity. Qed.

(** C8. In every reachable configuration a channel key has at most one
    pending timer, and it is the one recorded in [silenceTimers]. When it
    fires, its handle has left both tables by the time [flushBuffer] is
    called, and no timer is pending for the key after the callback's
    synchronous part: a timer armed from then on is the only one. *)
Theorem one_live_timer_per_key (c : Config) :
  reachable c ->
  let st := fst c in
  (forall h1 h2 k,
      pendingTimers st !! h1 = Some k -> pendingTimers st !! h2 = Some k ->
      h1 = h2)
  /\ (forall h k,
        pendingTimers st !! h = Some k ->
        silenceTimers st !! k = Some h
        /\ timer_fire_begin h st
           = (fst (flushBuffer_begin k (timer_prologue h k st)),
              pair k <$> snd (flushBuffer_begin k (timer_prologue h k st)))
        /\ silenceTimers (timer_prologue h k st) !! k = None
        /\ pendingTimers (timer_prologue h k st) !! h = None
        /\ (forall h', pendingTimers (fst (timer_fire_begin h st)) !! h'
                       ≠ Some k)).
Proof.
  intros Hreach st. pose proof (wf_reachable c Hreach) as Hwf. fold st in Hwf.
  split.
  - intros h1 h2 k. destruct Hwf as [_ Hok]. by eapply timers_ok_unique.
  - intros h k Hp.
    assert (Hrun : timer_fire_begin h st
              = (fst (flushBuffer_begin k (timer_prologue h k st)),
                 pair k <$> snd (flushBuffer_begin k (timer_prologue h k st)))).
    { unfold timer_fire_begin. rewrite Hp.
      by destruct (flushBuffer_begin k (timer_prologue h k st)). }
    split_and!.
    + destruct Hwf as [_ [Hown _]]. by apply Hown in Hp as [Hp _].
    + done.
    + simpl. apply lookup_delete_eq.
    + simpl. apply lookup_delete_eq.
    + intros h'. rewrite Hrun. simpl.
      assert (Hsame : pendingTimers
                        (fst (flushBuffer_begin k (timer_prologue h k st)))
                      = pendingTimers (timer_prologue h k st)).
      { unfold flushBuffer_begin.
        destruct (Map_get k _) as [msgs|]; [|done].
        by destruct (length msgs <? 4). }
      rewrite Hsame. by apply timer_prologue_cleared.
Qed.

Lemma one_live_timer_per_key_witness :
  let st := fst (agent_end_begin sample_now (sample_event "c" 5) initial) in
  silenceTimers st !! js "c" = Some 0
  /\ (forall h', pendingTimers (fst (timer_fire_begin 0 st)) !! h'
                 ≠ Some (js "c")).
Proof.
  intros st.
  assert (Hreach : reachable (st, [])).
  { apply rtc_once.
    apply (step_agent_end sample_now (sample_event "c" 5) initial [] st None).
    reflexivity. }
  destruct (one_live_timer_per_key (st, []) Hreach) as [_ Hfire].
  destruct (Hfire 0 (js "c")) as (Hown & _ & _ & _ & Hnone); [reflexivity|].
  split; assumption.
Defined.

(** ** Shutdown *)

Section StopFacts.
Implicit Types (k : JSString) (st : State) (m : BufferMap).
Variable extract : Request -> Outcome.

Lemma flushBuffer_requests k st :
  requests (flushBuffer extract k st) =
  requests st ++
    match Map_get k (messageBuffers st) with
    | Some v => batch_of (k, v)
    | None => []
    end.
Proof.
  unfold flushBuffer, flushBuffer_begin, batch_of.
  destruct (Map_get k (messageBuffers st)) as [v|];
    [|by rewrite app_nil_r].
  cbn [fst snd]. rewrite Nat.leb_antisym.
  destruct (length v <? 4); cbn [negb].
  - by rewrite app_nil_r.
  - apply (flushBuffer_end_requests k _ (send (mkRequest k v) st)).
Qed.

Lemma stop_body_buffers k st :
  messageBuffers (stop_body extract k st) = Map_delete k (messageBuffers st).
Proof.
  unfold stop_body. rewrite flushBuffer_buffers.
  by destruct (silenceTimers st !! k).
Qed.

Lemma stop_body_requests k st :
  requests (stop_body extract k st) =
  requests st ++
    match Map_get k (messageBuffers st) with
    | Some v => batch_of (k, v)
    | None => []
    end.
Proof.
  unfold stop_body. rewrite flushBuffer_requests.
  by destruct (silenceTimers st !! k).
Qed.



(** The loop on a store whose keys are distinct: the entries are
    consumed from the front, each by its own turn. *)
Lemma stop_loop_spec m st :
  messageBuffers st = m ->
  NoDup (Map_keys m) ->
  requests (stop_loop extract (Map_keys m) st)
    = requests st ++ concat (map batch_of m)
  /\ messageBuffers (stop_loop extract (Map_keys m) st) = [].
Proof.
  revert st. induction m as [|[k v] m IH]; intros st Hm Hnd; simpl.
  - by rewrite app_nil_r.
  - apply NoDup_cons in Hnd as [Hnin Hnd].
    destruct (IH (stop_body extract k st)) as [Hreq Hbuf]; [|done|].
    + rewrite stop_body_buffers, Hm. simpl. rewrite decide_True by done.
      by apply Map_delete_absent.
    + split; [|done]. rewrite Hreq, stop_body_requests, Hm. simpl.
      rewrite decide_True by done. by rewrite <- app_assoc.
Qed.

End StopFacts.



(** ** The recall filter *)

Section StringFacts.
Implicit Types (p s sub : JSString).

Lemma strip_prefix_spec p s rest :
  strip_prefix p s = Some rest <-> s = p ++ rest.
Proof.
  revert s. induction p as [|a p IH]; intros s; simpl.
  - split; congruence.
  - destruct s as [|b s]; [done|].
    destruct (N.eqb_spec a b) as [->|Hne].
    + rewrite IH. split; congruence.
    + split; [done | congruence].
Qed.

Lemma includes_spec sub s :
  includes sub s = true <-> exists pre post, s = pre ++ sub ++ post.
Proof.
  induction s as [|c s IH]; simpl.
  - destruct (strip_prefix sub []) as [rest|] eqn:Hp.
    + apply strip_prefix_spec in Hp. split; [|done].
      intros _. by exists [], rest.
    + split; [done|]. intros (pre & post & Heq).
      destruct pre; [|done]. simpl in Heq.
      apply strip_prefix_spec in Heq. congruence.
  - destruct (strip_prefix sub (c :: s)) as [rest|] eqn:Hp.
    + apply strip_prefix_spec in Hp. split; [|done].
      intros _. by exists [], rest.
    + rewrite IH. split.
      * intros (pre & post & ->). by exists (c :: pre), post.
      * intros (pre & post & Heq). destruct pre as [|c' pre].
        -- simpl in Heq. apply strip_prefix_spec in Heq. congruence.
        -- injection Heq as _ ->. by exists pre, post.
Qed.

Lemma anyPattern_spec (ps : list regex) s :
  anyPattern ps s = true <-> exists r, r ∈ ps /\ test r s = true.
Proof.
  induction ps as [|r ps IH]; simpl.
  - split; [done|]. intros (r & Hr & _). by apply elem_of_nil in Hr.
  - destruct (test r s) eqn:Ht.
    + split; [|done]. intros _. exists r. split; [apply list_elem_of_here|done].
    + rewrite IH. split.
      * intros (q & Hq & Hm). exists q.
        split; [by apply list_elem_of_further|done].
      * intros (q & [->|Hq]%elem_of_cons & Hm); [congruence|]. by exists q.
Qed.

Lemma hasMemoryKeywords_spec s :
  hasMemoryKeywords s = false <->
  forall kw, kw ∈ keywords -> ~ exists pre post, s = pre ++ kw ++ post.
Proof.
  unfold hasMemoryKeywords. rewrite <- not_true_iff_false, existsb_exists.
  split.
  - intros Hno kw Hkw Hin. apply Hno. exists kw.
    split; [by apply list_elem_of_In | by apply includes_spec].
  - intros Hno (kw & Hkw & Hin). apply (Hno kw).
    + by apply list_elem_of_In.
    + by apply includes_spec.
Qed.

End StringFacts.

(** C2, as amended. The gate skips a text exactly when it is empty, or
    shorter than 30 code units, or casual. A text is casual exactly when
    its lower-cased, trimmed form matches one of the leading patterns, or
    is shorter than 40 code units and contains neither ["?"] nor a memory
    keyword. *)
Theorem recall_gate_spec (toLowerCase : JSString -> JSString)
    (text : JSString) :
  let lower := lowered toLowerCase text in
  (shouldConsultMemory toLowerCase text = false <->
     text = [] \/ length text < 30
     \/ looksLikeCasualChat toLowerCase text = true)
  /\ (looksLikeCasualChat toLowerCase text = true <->
        (exists p, p ∈ casualPatterns /\ test p lower = true)
        \/ (length lower < 40
            /\ ~ (exists pre post, lower = pre ++ js "?" ++ post)
            /\ forall kw, kw ∈ keywords ->
                 ~ exists pre post, lower = pre ++ kw ++ post)).
Proof.
  intros lower. split.
  - unfold shouldConsultMemory. destruct text as [|c text']; [by split; auto|].
    set (text := c :: text').
    destruct (Nat.ltb_spec (length text) 30) as [Hlt|Hge].
    + split; auto.
    + destruct (looksLikeCasualChat toLowerCase text).
      * split; auto.
      * split; [done|]. intros [?|[?|?]]; [done|lia|done].
  - unfold looksLikeCasualChat. fold lower.
    rewrite <- anyPattern_spec.
    destruct (anyPattern casualPatterns lower); [by split; auto|].
    rewrite <- hasMemoryKeywords_spec, <- includes_spec.
    destruct (Nat.ltb_spec (length lower) 40) as [Hlt|Hge]; simpl.
    + destruct (includes (js "?") lower); simpl.
      * split; [done|]. intros [?|(_ & Hq & _)]; [done|]. by destruct Hq.
      * destruct (hasMemoryKeywords lower); simpl.
        -- split; [done|]. intros [?|(_ & _ & ?)]; done.
        -- split; [|done]. intros _. right. split_and!; [done| |done].
           intros ?; done.
    + split; [done|]. intros [?|(? & _)]; [done|lia].
Qed.

(** C2 as stated fails: ["what did we decide?"] has 19 code units, a
    question mark and two memory keywords, matches no casual pattern and
    is not casual; the gate still skips it. *)
Lemma short_question_is_skipped :
  let text := js "what did we decide?" in
  length text = 19
  /\ includes (js "?") (lowered toLowerCaseLatin text) = true
  /\ hasMemoryKeywords (lowered toLowerCaseLatin text) = true
  /\ anyPattern casualPatterns (lowered toLowerCaseLatin text) = false
  /\ looksLikeCasualChat toLowerCaseLatin text = false
  /\ shouldConsultMemory toLowerCaseLatin text = false.
Proof. split_and!; reflexivity. Qed.

(** The examples of the specification. *)
Example consult_hey : shouldConsultMemory toLowerCaseLatin (js "hey") = false.
Proof. reflexivity. Qed.

Example consult_ok : shouldConsultMemory toLowerCaseLatin (js "ok") = false.
Proof. reflexivity. Qed.

Example consult_x : shouldConsultMemory toLowerCaseLatin (js "x") = false.
Proof. reflexivity. Qed.

Example consult_aws :
  shouldConsultMemory toLowerCaseLatin
    (js "What did we decide about the AWS migration budget last quarter?")
  = true.
Proof. reflexivity. Qed.

(** The word boundary: ["hi"] opens ["hi there"] but not ["history"], which
    is kept by its keyword; ["hiya"] is matched by a later alternative. *)
Example boundary_hi_there :
  anyPattern casualPatterns (js "hi there") = true.
Proof. reflexivity. Qed.

Example boundary_history :
  anyPattern casualPatterns (js "history of the pricing page") = false
  /\ looksLikeCasualChat toLowerCaseLatin (js "History of the pricing page")
     = false.
Proof. split; reflexivity. Qed.

Example boundary_hiya : anyPattern casualPatterns (js "hiya") = true.
Proof. reflexivity. Qed.

(** A pattern match decides whatever the length. *)
Example casual_long_greeting :
  looksLikeCasualChat toLowerCaseLatin
    (js "Good   morning, what did we decide about the budget last week?")
  = true.
Proof. reflexivity. Qed.


(** * Further properties of the capture path *)


Section NewMessagesFacts.
Implicit Types (now : JSString) (event : Event) (msg : EventMessage).

Lemma qualifying_Some now msg m :
  qualifying now msg = Some m ->
  roleOf (msg_role msg) = Some (role m)
  /\ content m = flatten (msg_content msg)
  /\ timestamp m = now
  /\ 5 < length (content m).
Proof.
  unfold qualifying. destruct (roleOf (msg_role msg)) as [r|]; [|done].
  destruct (flatten (msg_content msg)) as [|c cs] eqn:Hf; [done|].
  destruct (Nat.ltb_spec 5 (length (c :: cs))) as [Hlt|]; [|done].
  by intros [= <-].
Qed.

Lemma qualifying_None now msg :
  qualifying now msg = None <->
  roleOf (msg_role msg) = None \/ length (flatten (msg_content msg)) <= 5.
Proof.
  unfold qualifying. destruct (roleOf (msg_role msg)) as [r|].
  - destruct (flatten (msg_content msg)) as [|c cs] eqn:Hf.
    + split; [intros _; right; simpl; lia | done].
    + destruct (Nat.ltb_spec 5 (length (c :: cs))) as [Hlt|Hge].
      * split; [done|]. intros [?|?]; [done|lia].
      * split; [by right | done].
  - split; [by left | done].
Qed.

Lemma newMessages_event_messages now event :
  newMessages now event = omap (qualifying now) (event_messages event).
Proof. unfold newMessages, event_messages. by destruct (messages event). Qed.

Lemma omap_nil_iff {A B} (f : A -> option B) (l : list A) :
  omap f l = [] <-> forall x, x ∈ l -> f x = None.
Proof.
  induction l as [|a l IH]; simpl.
  - split; [intros _ x Hx; by apply elem_of_nil in Hx | done].
  - destruct (f a) eqn:Hfa.
    + split; [done|]. intros Hall.
      specialize (Hall a (list_elem_of_here _ _)). congruence.
    + rewrite IH. split.
      * intros Hall x [->|Hx]%elem_of_cons; auto.
      * intros Hall x Hx. apply Hall. by apply list_elem_of_further.
Qed.

Lemma omap_length_le {A B} (f : A -> option B) (l : list A) :
  length (omap f l) <= length l.
Proof.
  induction l as [|a l IH]; [done|]. cbn. destruct (f a); cbn in *; lia.
Qed.

Lemma newMessages_qualified now event :
  Forall qualified (newMessages now event).
Proof.
  rewrite newMessages_event_messages.
  induction (event_messages event) as [|msg ms IH]; simpl; [constructor|].
  destruct (qualifying now msg) as [m|] eqn:Hq; [|done].
  constructor; [|done]. by apply qualifying_Some in Hq as (_ & _ & _ & ?).
Qed.

End NewMessagesFacts.

(** X2. Every message the hook takes from an event has the role user or
    assistant of its source message, the flattened text of that message,
    more than 5 code units long, and the time of the event; the messages
    taken keep the order of the event and are no more than it carries. *)
Theorem newMessages_sound (now : JSString) (event : Event) :
  length (newMessages now event) <= length (event_messages event)
  /\ Forall (fun m => 5 < length (content m) /\ timestamp m = now
                      /\ exists msg, msg ∈ event_messages event
                           /\ roleOf (msg_role msg) = Some (role m)
                           /\ content m = flatten (msg_content msg))
       (newMessages now event)
  /\ sublist (map content (newMessages now event))
       (map (fun msg => flatten (msg_content msg)) (event_messages event)).
Proof.
  rewrite newMessages_event_messages. split_and!.
  - apply omap_length_le.
  - induction (event_messages event) as [|msg ms IH]; simpl; [constructor|].
    assert (Hweak : Forall (fun m => 5 < length (content m)
              /\ timestamp m = now
              /\ exists msg0, msg0 ∈ msg :: ms
                   /\ roleOf (msg_role msg0) = Some (role m)
                   /\ content m = flatten (msg_content msg0))
              (omap (qualifying now) ms)).
    { eapply Forall_impl; [exact IH|]. simpl.
      intros m (? & ? & msg0 & ? & ? & ?). split_and!; try done.
      exists msg0. split; [by apply list_elem_of_further | done]. }
    destruct (qualifying now msg) as [m|] eqn:Hq; [|done].
    constructor; [|done].
    apply qualifying_Some in Hq as (Hr & Hc & Ht & Hl). split_and!; try done.
    exists msg. split; [apply list_elem_of_here | done].
  - induction (event_messages event) as [|msg ms IH]; simpl; [constructor|].
    destruct (qualifying now msg) as [m|] eqn:Hq; simpl.
    + apply qualifying_Some in Hq as (_ & -> & _). by apply sublist_skip.
    + by apply sublist_cons.
Qed.

(** X3. An event none of whose messages qualifies (another role, or a
    flattened text of at most 5 code units), an event without messages
    included, changes nothing: no buffer is created and the channel's
    pending timer is neither cleared nor reset. *)
Theorem agent_end_ignores_unqualified (extract : Request -> Outcome)
    (now : JSString) (event : Event) (st : State) :
  (forall msg, msg ∈ event_messages event ->
     roleOf (msg_role msg) = None
     \/ length (flatten (msg_content msg)) <= 5) ->
  agent_end_begin now event st = (st, None)
  /\ agent_end extract now event st = st.
Proof.
  intros Hall.
  assert (Hnil : newMessages now event = []).
  { rewrite newMessages_event_messages. apply omap_nil_iff.
    intros msg Hmsg. apply qualifying_None. by apply Hall. }
  unfold agent_end, agent_end_begin. by rewrite Hnil.
Qed.


Lemma agent_end_ignores_unqualified_witness :
  agent_end always_ok sample_now unqualified_event two_channels = two_channels.
Proof.
  apply (agent_end_ignores_unqualified always_ok sample_now unqualified_event
           two_channels).
  intros msg Hmsg. apply list_elem_of_In in Hmsg.
  destruct Hmsg as [<-|[<-|[]]]; [right; vm_compute; lia | left; reflexivity].
Defined.

Section AgentEndMore.
Implicit Types (k : JSString) (st : State) (now : JSString) (event : Event).

(** The hook, in both branches, in terms of the prepared state. *)
Lemma agent_end_buffers_below extract now event st :
  let k := getChannelKey event in
  let new := newMessages now event in
  new ≠ [] ->
  length (buffer_of k st ++ new) < MAX_BUFFER_SIZE ->
  agent_end extract now event st
    = armSilenceTimer k (clearSilenceTimer k (append k new st)).
Proof.
  intros k new Hnew Hlt. unfold agent_end.
  by rewrite (agent_end_begin_below now event st Hnew Hlt).
Qed.

Lemma agent_end_overflow extract now event st :
  let k := getChannelKey event in
  let new := newMessages now event in
  let buffer := buffer_of k st ++ new in
  new ≠ [] ->
  MAX_BUFFER_SIZE <= length buffer ->
  messageBuffers (agent_end extract now event st)
    = Map_delete (tempKey k)
        (Map_set (tempKey k) buffer
           (Map_set k (slice_last 4 buffer)
              (messageBuffers (append k new st))))
  /\ requests (agent_end extract now event st)
     = requests st ++ [mkRequest (tempKey k) buffer].
Proof.
  intros k new buffer Hnew Hle. unfold agent_end.
  rewrite (agent_end_begin_overflow now event st Hnew Hle). fold k new buffer.
  rewrite flushBuffer_end_buffers, flushBuffer_end_requests. simpl.
  rewrite (proj1 (clearSilenceTimer_fields k (append k new st))).
  by rewrite prepared_requests.
Qed.


End AgentEndMore.

(** X4. Channels are kept apart: a message event of channel [k] leaves the
    buffer and the recorded timer of every key other than [k] and its
    transient key as they were, and no timeout is cleared or created apart
    from the one recorded for [k] and the fresh one. *)
Theorem agent_end_other_channels (extract : Request -> Outcome)
    (now : JSString) (event : Event) (st : State) (k' : JSString) :
  let k := getChannelKey event in
  let st' := agent_end extract now event st in
  k' ≠ k ->
  k' ≠ tempKey k ->
  Map_get k' (messageBuffers st') = Map_get k' (messageBuffers st)
  /\ silenceTimers st' !! k' = silenceTimers st !! k'
  /\ (forall h, silenceTimers st !! k ≠ Some h -> h ≠ nextHandle st ->
                pendingTimers st' !! h = pendingTimers st !! h).
Proof.
  intros k st' Hk Htk. set (new := newMessages now event).
  destruct (decide (new = [])) as [Hnil|Hnew].
  { unfold st', agent_end, agent_end_begin. fold new. by rewrite Hnil. }
  destruct (agent_end_timers extract now event st) as [HT HP].
  fold st' in HT, HP.
  destruct (prepared_table k new st) as [HT2 Hn2].
  pose proof (prepared_pending k new st) as HP2.
  assert (Hpend : forall h, silenceTimers st !! k ≠ Some h ->
            pendingTimers (clearSilenceTimer k (append k new st)) !! h
            = pendingTimers st !! h).
  { intros h Hh. rewrite HP2. destruct (silenceTimers st !! k) as [h0|]; [|done].
    rewrite lookup_delete_ne; [done|]. congruence. }
  destruct (decide (length (buffer_of k st ++ new) < MAX_BUFFER_SIZE))
    as [Hlt|Hge].
  - rewrite (agent_end_begin_below now event st Hnew Hlt) in HT, HP.
    fold k new in HT, HP. simpl in HT, HP. rewrite HT2, Hn2 in HT.
    rewrite Hn2 in HP.
    unfold st'. rewrite (agent_end_buffers_below extract now event st Hnew Hlt).
    fold k new. split_and!.
    + simpl. rewrite (proj1 (clearSilenceTimer_fields k (append k new st))).
      rewrite Map_get_append. by rewrite decide_False by done.
    + simpl. rewrite HT2. by rewrite lookup_insert_ne by done.
    + intros h Hh Hfresh. simpl. rewrite Hn2.
      rewrite lookup_insert_ne by done. by apply Hpend.
  - assert (Hle : MAX_BUFFER_SIZE <= length (buffer_of k st ++ new)) by lia.
    rewrite (agent_end_begin_overflow now event st Hnew Hle) in HT, HP.
    fold k new in HT, HP. simpl in HT, HP.
    destruct (agent_end_overflow extract now event st Hnew Hle) as [Hbuf _].
    fold k new st' in Hbuf. split_and!.
    + rewrite Hbuf. rewrite Map_get_delete_ne by done.
      rewrite !Map_get_set_ne by done.
      rewrite Map_get_append. by rewrite decide_False by done.
    + by rewrite HT, HT2.
    + intros h Hh _. rewrite HP. by apply Hpend.
Qed.

Lemma agent_end_other_channels_witness :
  Map_get (js "a")
    (messageBuffers (agent_end always_ok sample_now (sample_event "b" 20)
                       two_channels))
  = Map_get (js "a") (messageBuffers two_channels).
Proof.
  apply (agent_end_other_channels always_ok sample_now (sample_event "b" 20)
           two_channels (js "a")); vm_compute; discriminate.
Defined.

(** X5. Once an overflow flush of channel [k] is over, the store has no
    entry under the transient key [k ++ "__flush"], whatever it held under
    that key before, and the one request of the flush carries the buffer of
    [k]: messages buffered by a channel that bears the transient key as its
    own are dropped unsent. *)
Theorem overflow_discards_transient_entry (extract : Request -> Outcome)
    (now : JSString) (event : Event) (st : State) :
  let k := getChannelKey event in
  let new := newMessages now event in
  let buffer := buffer_of k st ++ new in
  let st' := agent_end extract now event st in
  new ≠ [] ->
  MAX_BUFFER_SIZE <= length buffer ->
  Map_get (tempKey k) (messageBuffers st') = None
  /\ (tempKey k ∉ Map_keys (messageBuffers st'))
  /\ requests st' = requests st ++ [mkRequest (tempKey k) buffer].
Proof.
  intros k new buffer st' Hnew Hle.
  destruct (agent_end_overflow extract now event st Hnew Hle) as [Hbuf Hreq].
  fold k new buffer st' in Hbuf, Hreq.
  assert (Hnone : Map_get (tempKey k) (messageBuffers st') = None).
  { rewrite Hbuf. apply Map_get_delete_eq. }
  split_and!; [done | by apply Map_get_None | done].
Qed.




Lemma overflow_discards_transient_entry_witness :
  let st := agent_end always_ok sample_now (sample_event "c__flush" 5)
              initial in
  length (buffer_of (js "c__flush") st) = 5
  /\ Map_get (js "c__flush")
       (messageBuffers (agent_end always_ok sample_now (sample_event "c" 20)
                          st)) = None.
Proof.
  intros st. split; [reflexivity|].
  apply (overflow_discards_transient_entry always_ok sample_now
           (sample_event "c" 20) st).
  - vm_compute. discriminate.
  - vm_compute. lia.
Defined.

Section SilenceFlush.
Implicit Types (k : JSString) (st : State) (h : nat).

Lemma timer_fire_pending extract h k st :
  pendingTimers st !! h = Some k ->
  timer_fire extract h st = flushBuffer extract k (timer_prologue h k st).
Proof.
  intros Hp. unfold timer_fire, timer_fire_begin, flushBuffer. rewrite Hp.
  by destruct (flushBuffer_begin k (timer_prologue h k st)) as [st1 [r|]].
Qed.

End SilenceFlush.

(** X7. The silence flush consumes the buffer whole. When an event leaves
    the channel below [MAX_BUFFER_SIZE] and the timer it armed fires with
    nothing in between, the request sent carries the entire buffer under
    the channel key itself if the buffer holds at least 4 messages, and
    nothing is sent otherwise; either way the channel is left with no
    buffer, no recorded timer and no pending timeout. *)
Theorem silence_flush_consumes_buffer (extract : Request -> Outcome)
    (now : JSString) (event : Event) (st : State) :
  let k := getChannelKey event in
  let new := newMessages now event in
  let buffer := buffer_of k st ++ new in
  let st1 := agent_end extract now event st in
  let st2 := timer_fire extract (nextHandle st) st1 in
  wf st ->
  new ≠ [] ->
  length buffer < MAX_BUFFER_SIZE ->
  pendingTimers st1 !! nextHandle st = Some k
  /\ requests st2 = requests st ++ batch_of (k, buffer)
  /\ Map_get k (messageBuffers st2) = None
  /\ silenceTimers st2 !! k = None
  /\ (forall h, pendingTimers st2 !! h ≠ Some k).
Proof.
  intros k new buffer st1 st2 Hwf Hnew Hlt.
  assert (Hst1 : st1 = armSilenceTimer k (clearSilenceTimer k (append k new st)))
    by (by apply agent_end_buffers_below).
  destruct (prepared_table k new st) as [HT2 Hn2].
  assert (Hp : pendingTimers st1 !! nextHandle st = Some k).
  { rewrite Hst1. simpl. rewrite Hn2. apply lookup_insert_eq. }
  assert (Hwf1 : wf st1) by (by apply wf_agent_end).
  assert (Hfire : st2 = flushBuffer extract k
                          (timer_prologue (nextHandle st) k st1))
    by (by apply timer_fire_pending).
  assert (Hget : Map_get k (messageBuffers st1) = Some buffer).
  { rewrite Hst1. simpl.
    rewrite (proj1 (clearSilenceTimer_fields k (append k new st))).
    rewrite Map_get_append. by rewrite decide_True. }
  destruct (flushBuffer_timers extract k
              (timer_prologue (nextHandle st) k st1)) as (HT & HP & _).
  rewrite <- Hfire in HT, HP.
  split_and!.
  - done.
  - rewrite Hfire, flushBuffer_requests. simpl. rewrite Hget.
    f_equal. rewrite Hst1. simpl. apply prepared_requests.
  - rewrite Hfire, flushBuffer_buffers. apply Map_get_delete_eq.
  - rewrite HT. simpl. apply lookup_delete_eq.
  - intros h. rewrite HP. by apply timer_prologue_cleared.
Qed.

Lemma silence_flush_consumes_buffer_witness :
  let st1 := agent_end always_fail sample_now (sample_event "a" 5) initial in
  requests (timer_fire always_fail 0 st1)
    = [mkRequest (js "a") (newMessages sample_now (sample_event "a" 5))]
  /\ Map_get (js "a") (messageBuffers (timer_fire always_fail 0 st1)) = None.
Proof.
  intros st1.
  destruct (silence_flush_consumes_buffer always_fail sample_now
              (sample_event "a" 5) initial) as (_ & Hreq & Hget & _).
  - apply wf_initial.
  - vm_compute. discriminate.
  - vm_compute. lia.
  - split; [etrans; [exact Hreq | reflexivity] | exact Hget].
Defined.

(** ** What the store and the extraction API ever see *)

Section StoreInvariant.
Implicit Types (k : JSString) (st : State) (b : list BufferedMessage).

Lemma store_ok_same st st' :
  messageBuffers st' = messageBuffers st -> store_ok st -> store_ok st'.
Proof. unfold store_ok. by intros ->. Qed.

Lemma store_ok_delete st st' k :
  messageBuffers st' = Map_delete k (messageBuffers st) ->
  store_ok st -> store_ok st'.
Proof.
  unfold store_ok. intros -> Hok k' b Hget.
  destruct (decide (k = k')) as [<-|Hne].
  - by rewrite Map_get_delete_eq in Hget.
  - rewrite Map_get_delete_ne in Hget by done. by apply (Hok k').
Qed.

Lemma store_ok_set st st' k b :
  messageBuffers st' = Map_set k b (messageBuffers st) ->
  b ≠ [] -> Forall qualified b ->
  store_ok st -> store_ok st'.
Proof.
  unfold store_ok. intros -> Hne Hq Hok k' b' Hget.
  destruct (decide (k = k')) as [<-|Hkk].
  - rewrite Map_get_set_eq in Hget. by injection Hget as <-.
  - rewrite Map_get_set_ne in Hget by done. by apply (Hok k').
Qed.

Lemma store_ok_buffer_of st k : store_ok st -> Forall qualified (buffer_of k st).
Proof.
  intros Hok. unfold buffer_of.
  destruct (Map_get k (messageBuffers st)) as [b|] eqn:Hget; [|constructor].
  by apply (Hok k).
Qed.

Lemma store_ok_initial : store_ok initial.
Proof. intros k b Hget. done. Qed.

Lemma store_ok_append k new st :
  new ≠ [] -> Forall qualified new ->
  store_ok st -> store_ok (append k new st).
Proof.
  intros Hne Hq Hok k' b. rewrite Map_get_append.
  destruct (decide (k = k')) as [<-|Hkk]; [|by apply (Hok k')].
  intros [= <-]. split.
  - intros [_ ?]%app_eq_nil. done.
  - apply Forall_app. split; [by apply store_ok_buffer_of | done].
Qed.

Lemma flushBuffer_begin_buffers k st :
  messageBuffers (fst (flushBuffer_begin k st)) = messageBuffers st
  \/ messageBuffers (fst (flushBuffer_begin k st))
     = Map_delete k (messageBuffers st).
Proof.
  unfold flushBuffer_begin.
  destruct (Map_get k (messageBuffers st)) as [b|]; [|by right].
  destruct (length b <? 4); [by right | by left].
Qed.

Lemma flushBuffer_begin_requests k st :
  requests (fst (flushBuffer_begin k st)) =
  requests st ++
    match Map_get k (messageBuffers st) with
    | Some v => batch_of (k, v)
    | None => []
    end.
Proof.
  unfold flushBuffer_begin, batch_of.
  destruct (Map_get k (messageBuffers st)) as [v|];
    [|by rewrite app_nil_r].
  cbn [fst snd]. rewrite Nat.leb_antisym.
  destruct (length v <? 4); cbn [negb fst]; [by rewrite app_nil_r | done].
Qed.

Lemma store_ok_flushBuffer_begin k st :
  store_ok st -> store_ok (fst (flushBuffer_begin k st)).
Proof.
  intros Hok. destruct (flushBuffer_begin_buffers k st) as [Heq|Heq].
  - by apply (store_ok_same st).
  - by apply (store_ok_delete st _ k).
Qed.

Lemma store_ok_flushBuffer_end k o st :
  store_ok st -> store_ok (flushBuffer_end k o st).
Proof. apply (store_ok_delete st _ k), flushBuffer_end_buffers. Qed.

Lemma batch_of_ok k b : Forall qualified b -> Forall request_ok (batch_of (k, b)).
Proof.
  intros Hq. unfold batch_of. cbn [fst snd].
  destruct (Nat.leb_spec 4 (length b)); constructor; [|constructor].
  by split_and!.
Qed.

Lemma requests_ok_flushBuffer_begin k st :
  store_ok st -> Forall request_ok (requests st) ->
  Forall request_ok (requests (fst (flushBuffer_begin k st))).
Proof.
  intros Hok Hreq. rewrite flushBuffer_begin_requests.
  apply Forall_app. split; [done|].
  destruct (Map_get k (messageBuffers st)) as [b|] eqn:Hget; [|constructor].
  apply batch_of_ok. by apply (Hok k).
Qed.

Lemma slice_last_qualified n b :
  Forall qualified b -> Forall qualified (slice_last n b).
Proof. intros Hq. unfold slice_last. by apply Forall_drop. Qed.

(** The two invariants through the [agent_end] hook. *)
Lemma inv_agent_end_begin now event st :
  store_ok st -> Forall request_ok (requests st) ->
  store_ok (fst (agent_end_begin now event st))
  /\ Forall request_ok (requests (fst (agent_end_begin now event st))).
Proof.
  intros Hok Hreq. set (k := getChannelKey event).
  set (new := newMessages now event).
  destruct (decide (new = [])) as [Hnil|Hnew].
  { unfold agent_end_begin. fold new. by rewrite Hnil. }
  pose proof (newMessages_qualified now event) as Hq. fold new in Hq.
  pose proof (store_ok_append k new st Hnew Hq Hok) as Hok1.
  assert (Hbq : Forall qualified (buffer_of k st ++ new)).
  { apply Forall_app. split; [by apply store_ok_buffer_of | done]. }
  destruct (decide (length (buffer_of k st ++ new) < MAX_BUFFER_SIZE))
    as [Hlt|Hge].
  - rewrite (agent_end_begin_below now event st Hnew Hlt). fold k new.
    split.
    + apply (store_ok_same (append k new st)); [|done]. simpl.
      apply clearSilenceTimer_fields.
    + simpl. by rewrite prepared_requests.
  - assert (Hle : MAX_BUFFER_SIZE <= length (buffer_of k st ++ new)) by lia.
    rewrite (agent_end_begin_overflow now event st Hnew Hle). fold k new.
    unfold MAX_BUFFER_SIZE in Hle. split.
    + eapply (store_ok_set _ _ (tempKey k)); [reflexivity| |done|].
      { intros Hnil. rewrite Hnil in Hle. simpl in Hle. lia. }
      eapply (store_ok_set _ _ k); [reflexivity| | |].
      * intros Hnil.
        pose proof (length_slice_last 4 (buffer_of k st ++ new)) as Hl.
        rewrite Hnil in Hl. simpl in Hl. lia.
      * by apply slice_last_qualified.
      * apply (store_ok_same (append k new st)); [|done]. simpl.
        apply clearSilenceTimer_fields.
    + simpl. rewrite prepared_requests. apply Forall_app. split; [done|].
      constructor; [|constructor]. split_and!; [simpl; lia | done | done].
Qed.

Lemma inv_timer_fire_begin h st :
  store_ok st -> Forall request_ok (requests st) ->
  store_ok (fst (timer_fire_begin h st))
  /\ Forall request_ok (requests (fst (timer_fire_begin h st))).
Proof.
  intros Hok Hreq. unfold timer_fire_begin.
  destruct (pendingTimers st !! h) as [k|]; [|done].
  assert (Hok1 : store_ok (timer_prologue h k st)) by done.
  pose proof (store_ok_flushBuffer_begin k _ Hok1) as Hb.
  pose proof (requests_ok_flushBuffer_begin k _ Hok1 Hreq) as Hr.
  by destruct (flushBuffer_begin k (timer_prologue h k st)).
Qed.

Lemma inv_flushBuffer extract k st :
  store_ok st -> Forall request_ok (requests st) ->
  store_ok (flushBuffer extract k st)
  /\ Forall request_ok (requests (flushBuffer extract k st)).
Proof.
  intros Hok Hreq. split.
  - apply (store_ok_delete st _ k); [apply flushBuffer_buffers | done].
  - rewrite flushBuffer_requests. apply Forall_app. split; [done|].
    destruct (Map_get k (messageBuffers st)) as [b|] eqn:Hget; [|constructor].
    apply batch_of_ok. by apply (Hok k).
Qed.

Lemma inv_stop_loop extract keys st :
  store_ok st -> Forall request_ok (requests st) ->
  store_ok (stop_loop extract keys st)
  /\ Forall request_ok (requests (stop_loop extract keys st)).
Proof.
  revert st. induction keys as [|k keys IH]; intros st Hok Hreq; [done|].
  simpl. apply IH; unfold stop_body.
  - apply inv_flushBuffer; by destruct (silenceTimers st !! k).
  - apply inv_flushBuffer; by destruct (silenceTimers st !! k).
Qed.

Lemma inv_step c c' :
  step c c' ->
  store_ok (fst c) /\ Forall request_ok (requests (fst c)) ->
  store_ok (fst c') /\ Forall request_ok (requests (fst c')).
Proof.
  intros Hstep [Hok Hreq].
  destruct Hstep as [now event st fl st' r Hrun
    | h k st fl st' r Hp Hrun | k o st fl1 fl2 | extract st fl];
    cbn [fst] in *.
  - pose proof (inv_agent_end_begin now event st Hok Hreq) as Hinv.
    by rewrite Hrun in Hinv.
  - pose proof (inv_timer_fire_begin h st Hok Hreq) as Hinv.
    by rewrite Hrun in Hinv.
  - split; [by apply store_ok_flushBuffer_end|].
    by rewrite flushBuffer_end_requests.
  - unfold stop.
    destruct (inv_stop_loop extract (Map_keys (messageBuffers st)) st Hok Hreq)
      as [Hok' Hreq'].
    split; [by apply (store_ok_same (stop_loop extract
                        (Map_keys (messageBuffers st)) st)) | done].
Qed.

Lemma inv_reachable c :
  reachable c -> store_ok (fst c) /\ Forall request_ok (requests (fst c)).
Proof.
  unfold reachable. intros Hrtc.
  eapply (rtc_ind_r (fun c => store_ok (fst c)
                              /\ Forall request_ok (requests (fst c))));
    [| |exact Hrtc].
  - split; [apply store_ok_initial | constructor].
  - intros c1 c2 _ Hstep Hinv. by eapply inv_step.
Qed.

Lemma elem_Map_get k b (m : BufferMap) :
  NoDup (Map_keys m) -> (k, b) ∈ m -> Map_get k m = Some b.
Proof.
  induction m as [|[k0 b0] m IH]; simpl; intros Hnd Hin.
  - by apply elem_of_nil in Hin.
  - apply NoDup_cons in Hnd as [Hnin Hnd].
    apply elem_of_cons in Hin as [[= -> ->]|Hin].
    + by rewrite decide_True.
    + rewrite decide_False; [by apply IH|].
      intros ->. apply Hnin. apply list_elem_of_fmap. by exists (k, b).
Qed.

Lemma totalBuffered_from (m : BufferMap) (a : nat) :
  fold_left (fun sum e => sum + length (snd e)) m a = a + totalBuffered m.
Proof.
  unfold totalBuffered. revert a.
  induction m as [|[k1 b1] m IH]; intros a; simpl; [lia|].
  rewrite (IH (a + length b1)), (IH (length b1)). lia.
Qed.

Lemma totalBuffered_cons k b (m : BufferMap) :
  totalBuffered ((k, b) :: m) = length b + totalBuffered m.
Proof. unfold totalBuffered at 1. simpl. apply totalBuffered_from. Qed.

Lemma totalBuffered_ge_size (m : BufferMap) :
  (forall k b, (k, b) ∈ m -> b ≠ []) -> length m <= totalBuffered m.
Proof.
  induction m as [|[k b] m IH]; intros Hne; [done|].
  rewrite totalBuffered_cons. simpl.
  assert (0 < length b).
  { destruct b; [|simpl; lia]. by destruct (Hne k []); [apply list_elem_of_here|]. }
  assert (length m <= totalBuffered m); [|lia].
  apply IH. intros k' b' Hin. apply (Hne k'). by apply list_elem_of_further.
Qed.

End StoreInvariant.

(** X8. The extraction API is never called with fewer than 4 messages:
    every request sent in any run of the event loop carries at least 4
    messages, each with a content of more than 5 code units, and the source
    tag ["openclaw"]. *)
Theorem requests_always_flushable (c : Config) :
  reachable c ->
  Forall (fun r => 4 <= length (req_messages r)
                   /\ req_source r = js "openclaw"
                   /\ Forall (fun m => 5 < length (content m))
                        (req_messages r))
    (requests (fst c)).
Proof. intros Hreach. by apply inv_reachable. Qed.

(** X9. In any run of the event loop no buffer of the store is empty and
    every buffered message has a content of more than 5 code units. The
    buffer check of the [status] command, reached when its insights call
    has returned, therefore prints its line exactly when some channel has a
    buffer, and the count it prints is at least the number of channels. *)
Theorem status_reports_buffered_channels (c : Config) :
  reachable c ->
  let st := fst c in
  (forall k b, Map_get k (messageBuffers st) = Some b ->
               b ≠ [] /\ Forall (fun m => 5 < length (content m)) b)
  /\ (statusBufferLine st = None <-> messageBuffers st = [])
  /\ (forall total size, statusBufferLine st = Some (total, size) ->
        size = length (messageBuffers st) /\ 0 < size <= total).
Proof.
  intros Hreach st.
  destruct (inv_reachable c Hreach) as [Hok _]. fold st in Hok.
  destruct (wf_reachable c Hreach) as [Hnd _]. fold st in Hnd.
  assert (Hge : length (messageBuffers st) <= totalBuffered (messageBuffers st)).
  { apply totalBuffered_ge_size. intros k b Hin.
    by apply (Hok k), elem_Map_get. }
  split_and!.
  - done.
  - unfold statusBufferLine.
    destruct (Nat.ltb_spec 0 (totalBuffered (messageBuffers st))) as [Hpos|Hz].
    + split; [done|]. intros Hnil. rewrite Hnil in Hpos.
      unfold totalBuffered in Hpos. simpl in Hpos. lia.
    + split; [|done]. intros _.
      destruct (messageBuffers st); [done | simpl in Hge; lia].
  - intros total size. unfold statusBufferLine.
    destruct (Nat.ltb_spec 0 (totalBuffered (messageBuffers st))) as [Hpos|Hz];
      [|done].
    intros [= <- <-]. split; [done|]. split; [|done].
    destruct (messageBuffers st); [|simpl; lia].
    unfold totalBuffered in Hpos. simpl in Hpos. lia.
Qed.

Lemma requests_always_flushable_witness :
  let c := (fst (agent_end_begin sample_now (sample_event "c" 20) initial),
            [tempKey (js "c")]) in
  length (requests (fst c)) = 1
  /\ Forall (fun r => 4 <= length (req_messages r)
                      /\ req_source r = js "openclaw"
                      /\ Forall (fun m => 5 < length (content m))
                           (req_messages r))
       (requests (fst c)).
Proof.
  intros c. split; [reflexivity|].
  apply (requests_always_flushable c).
  apply rtc_once.
  eapply (step_agent_end sample_now (sample_event "c" 20) initial [] _
            (Some (tempKey (js "c"), _))).
  reflexivity.
Defined.

Lemma status_reports_buffered_channels_witness :
  let c := (fst (agent_end_begin sample_now (sample_event "c" 5) initial),
            @nil JSString) in
  statusBufferLine (fst c) = Some (5, 1)
  /\ 0 < 1 <= 5.
Proof.
  intros c. split; [reflexivity|].
  assert (Hreach : reachable c).
  { apply rtc_once.
    apply (step_agent_end sample_now (sample_event "c" 5) initial []
             (fst c) None).
    reflexivity. }
  destruct (status_reports_buffered_channels c Hreach) as (_ & _ & Hline).
  by destruct (Hline 5 1 eq_refl) as [_ ?].
Defined.

(** X10. The overlap is sent twice when the service stops right after an
    overflow: the 4 messages kept as the channel's live buffer, already
    part of the overflow batch, make a batch of their own at shutdown. *)
Theorem overlap_resent_at_shutdown (extract extract' : Request -> Outcome)
    (now : JSString) (event : Event) (st : State) :
  let k := getChannelKey event in
  let new := newMessages now event in
  let buffer := buffer_of k st ++ new in
  let st' := stop extract' (agent_end extract now event st) in
  wf st ->
  new ≠ [] ->
  MAX_BUFFER_SIZE <= length buffer ->
  mkRequest (tempKey k) buffer ∈ requests st'
  /\ mkRequest k (slice_last 4 buffer) ∈ requests st'
  /\ buffer = firstn (length buffer - 4) buffer ++ slice_last 4 buffer.
Proof.
  intros k new buffer st' Hwf Hnew Hle.
  set (st1 := agent_end extract now event st).
  assert (Hwf1 : wf st1) by (by apply wf_agent_end).
  destruct (stop_loop_spec extract' (messageBuffers st1) st1 eq_refl
              (proj1 Hwf1)) as [Hreq _].
  destruct (agent_end_overflow extract now event st Hnew Hle) as [Hbuf Hreq1].
  fold k new buffer st1 in Hbuf, Hreq1.
  assert (Hst' : requests st'
                 = requests st1 ++ concat (map batch_of (messageBuffers st1)))
    by exact Hreq.
  rewrite Hst', Hreq1. split_and!.
  - apply elem_of_app. left. apply elem_of_app. right. apply list_elem_of_here.
  - apply elem_of_app. right.
    assert (Hget : Map_get k (messageBuffers st1) = Some (slice_last 4 buffer)).
    { rewrite Hbuf. rewrite Map_get_delete_ne by (apply tempKey_ne).
      rewrite Map_get_set_ne by (apply tempKey_ne). apply Map_get_set_eq. }
    apply Map_get_Some_elem in Hget.
    apply list_elem_of_In, in_concat.
    exists (batch_of (k, slice_last 4 buffer)). split.
    + apply in_map. by apply list_elem_of_In.
    + unfold batch_of. cbn [fst snd]. rewrite length_slice_last
        by (unfold MAX_BUFFER_SIZE in Hle; lia).
      by left.
  - apply slice_last_suffix.
Qed.

Lemma overlap_resent_at_shutdown_witness :
  mkRequest (js "c")
    (slice_last 4 (newMessages sample_now (sample_event "c" 20)))
  ∈ requests (stop always_ok
                (agent_end always_ok sample_now (sample_event "c" 20)
                   initial)).
Proof.
  apply (overlap_resent_at_shutdown always_ok always_ok sample_now
           (sample_event "c" 20) initial).
  - apply wf_initial.
  - vm_compute. discriminate.
  - vm_compute. lia.
Defined.

(** X11. Stopping twice is harmless: after one [stop] the store is empty,
    so a second [stop] sends nothing more and leaves the timers as they
    are. *)
Theorem stop_twice_sends_nothing (extract extract' : Request -> Outcome)
    (st : State) :
  wf st ->
  let st1 := stop extract st in
  let st2 := stop extract' st1 in
  messageBuffers st1 = []
  /\ requests st2 = requests st1
  /\ messageBuffers st2 = []
  /\ silenceTimers st2 = silenceTimers st1
  /\ pendingTimers st2 = pendingTimers st1.
Proof.
  intros Hwf st1 st2.
  destruct (stop_loop_spec extract (messageBuffers st) st eq_refl (proj1 Hwf))
    as [_ Hbuf].
  assert (Hb1 : messageBuffers st1 = []) by exact Hbuf.
  assert (Hst2 : st2 = log InfoStopped st1).
  { unfold st2, stop. clearbody st1. by rewrite Hb1. }
  rewrite Hst2. by split_and!.
Qed.

Lemma stop_twice_sends_nothing_witness :
  requests (stop always_ok (stop always_fail two_channels))
  = requests (stop always_fail two_channels).
Proof.
  apply (stop_twice_sends_nothing always_fail always_ok two_channels).
  unfold two_channels. apply wf_agent_end, wf_agent_end, wf_initial.
Defined.



(** * The recall hook *)

Section RecallFacts.
Implicit Types (ms pre post : list EventMessage) (m : EventMessage).

Lemma lastUserMessage_other m rest :
  msg_role m ≠ js "user" ->
  lastUserMessage (m :: rest) = lastUserMessage rest.
Proof. intros Hm. cbn [lastUserMessage]. by rewrite decide_False. Qed.

Lemma lastUserMessage_user m rest :
  msg_role m = js "user" ->
  lastUserMessage (m :: rest) = flattenRecall (msg_content m).
Proof. intros Hm. cbn [lastUserMessage]. by rewrite decide_True. Qed.

Lemma lastUserMessage_skip post rest :
  Forall (fun x => msg_role x ≠ js "user") post ->
  lastUserMessage (rev post ++ rest) = lastUserMessage rest.
Proof.
  induction post as [|x post IH] using rev_ind; intros Hall; [done|].
  apply Forall_app in Hall as [Hpost Hx]. rewrite Forall_singleton in Hx.
  rewrite rev_app_distr. cbn [rev app].
  rewrite (lastUserMessage_other x _ Hx). by apply IH.
Qed.

Lemma lastUserMessage_found pre m post :
  msg_role m = js "user" ->
  Forall (fun x => msg_role x ≠ js "user") post ->
  lastUserMessage (rev (pre ++ m :: post)) = flattenRecall (msg_content m).
Proof.
  intros Hm Hpost. rewrite rev_app_distr. cbn [rev]. rewrite <- app_assoc.
  rewrite lastUserMessage_skip by done. cbn [app].
  by apply lastUserMessage_user.
Qed.

Lemma lastUserMessage_none ms :
  Forall (fun x => msg_role x ≠ js "user") ms ->
  lastUserMessage (rev ms) = [].
Proof.
  intros Hall. rewrite <- (app_nil_r (rev ms)).
  by rewrite lastUserMessage_skip.
Qed.

End RecallFacts.

(** X13. The text the recall hook works on is that of the last message of
    role ["user"]; earlier messages play no part. If that text is empty the
    prompt is taken instead, and earlier user messages are still not
    consulted. *)
Theorem selectUserMessage_last_user (pre post : list EventMessage)
    (m : EventMessage) (p : option JSString) :
  msg_role m = js "user" ->
  Forall (fun x => msg_role x ≠ js "user") post ->
  selectUserMessage {| recall_messages := Some (pre ++ m :: post);
                       recall_prompt := p |}
  = match flattenRecall (msg_content m), p with
    | [], Some q => q
    | text, _ => text
    end.
Proof.
  intros Hm Hpost. unfold selectUserMessage.
  cbn [recall_messages recall_prompt].
  rewrite (lastUserMessage_found pre m post Hm Hpost).
  by destruct (flattenRecall (msg_content m)), p.
Qed.

Lemma selectUserMessage_last_user_witness :
  selectUserMessage sample_recall_event = sample_question.
Proof.
  apply (selectUserMessage_last_user
           [ {| msg_role := js "user";
                msg_content := ContentString (js "Hello there") |};
             {| msg_role := js "assistant";
                msg_content := ContentString (js "Hi! How can I help?") |} ]
           [ {| msg_role := js "assistant";
                msg_content := ContentString (js "Let me check.") |} ]
           {| msg_role := js "user";
              msg_content := ContentString sample_question |}
           (Some (js "the flat prompt"))).
  - reflexivity.
  - constructor; [vm_compute; discriminate | constructor].
Defined.

(** X14. Without a message of role ["user"], a missing message list
    included, the hook works on the prompt alone; with no prompt either it
    returns [{}] and sends no query, whatever the context API would
    answer. *)
Theorem recall_without_user_message (toLowerCase : JSString -> JSString)
    (contextApi : ContextQuery -> ContextOutcome)
    (ms : option (list EventMessage)) (p : option JSString) :
  Forall (fun x => msg_role x ≠ js "user")
    (match ms with Some l => l | None => [] end) ->
  selectUserMessage {| recall_messages := ms; recall_prompt := p |}
    = match p with Some q => q | None => [] end
  /\ before_agent_start toLowerCase contextApi
       {| recall_messages := ms; recall_prompt := None |}
     = {| run_result := NoContext; run_query := None; run_logs := [] |}.
Proof.
  intros Hall.
  assert (Hsel : forall q,
            selectUserMessage {| recall_messages := ms; recall_prompt := q |}
            = match q with Some t => t | None => [] end).
  { intros q. unfold selectUserMessage.
    cbn [recall_messages recall_prompt]. destruct ms as [l|].
    - rewrite (lastUserMessage_none l Hall). by destruct q.
    - by destruct q. }
  split; [apply Hsel|].
  unfold before_agent_start. by rewrite Hsel.
Qed.

Lemma recall_without_user_message_witness :
  before_agent_start toLowerCaseLatin sample_context_api
    {| recall_messages :=
         Some [ {| msg_role := js "assistant";
                   msg_content := ContentString sample_question |} ];
       recall_prompt := None |}
  = {| run_result := NoContext; run_query := None; run_logs := [] |}.
Proof.
  apply (recall_without_user_message toLowerCaseLatin sample_context_api
           (Some [ {| msg_role := js "assistant";
                      msg_content := ContentString sample_question |} ])
           None).
  constructor; [vm_compute; discriminate | constructor].
Defined.

Section RecallGate.
Variable toLowerCase : JSString -> JSString.
Variable contextApi : ContextQuery -> ContextOutcome.




End RecallGate.




(** * The casual patterns, read as sets of openers *)

Section PatternFacts.
Implicit Types (s rest : JSString) (prev : option N)
  (k : option N -> JSString -> bool).

Lemma last_or_cons prev c (l : JSString) :
  last_or prev (c :: l) = last_or (Some c) l.
Proof.
  unfold last_or. simpl. destruct (rev l) as [|x t]; by simpl.
Qed.

Lemma last_or_nonempty prev (l : JSString) :
  l ≠ [] -> last_or prev l = last_or None l.
Proof. destruct l as [|c l]; [done|]. intros _. by rewrite !last_or_cons. Qed.

Lemma space_star_spec prev s k :
  space_star prev s k = true <->
  exists sp rest, s = sp ++ rest /\ allSpace sp
                  /\ k (last_or prev sp) rest = true.
Proof.
  revert prev. induction s as [|c s IH]; intros prev; simpl.
  - split.
    + intros Hk. exists [], []. by split_and!; [|constructor|].
    + intros (sp & rest & Heq & _ & Hk). symmetry in Heq.
      apply app_eq_nil in Heq as [-> ->]. exact Hk.
  - destruct (isSpace c) eqn:Hc.
    + rewrite orb_true_iff, IH. split.
      * intros [(sp & rest & -> & Hsp & Hk)|Hk].
        -- exists (c :: sp), rest. split_and!; [done | by constructor|].
           by rewrite last_or_cons.
        -- exists [], (c :: s). by split_and!; [|constructor|].
      * intros (sp & rest & Heq & Hsp & Hk). destruct sp as [|c' sp].
        -- right. simpl in Heq. by rewrite Heq.
        -- left. injection Heq as <- ->. exists sp, rest.
           apply Forall_cons in Hsp as [_ Hsp].
           split_and!; [done | done|]. by rewrite last_or_cons in Hk.
    + split.
      * intros Hk. exists [], (c :: s). by split_and!; [|constructor|].
      * intros (sp & rest & Heq & Hsp & Hk). destruct sp as [|c' sp].
        -- simpl in Heq. by rewrite Heq.
        -- injection Heq as <- ->. apply Forall_cons in Hsp as [Hc' _].
           congruence.
Qed.

Lemma rmatch_words (l : list string) prev s k :
  rmatch (words l) prev s k = true <->
  exists w rest, w ∈ l /\ s = js w ++ rest
                 /\ k (last_or prev (js w)) rest = true.
Proof.
  unfold words. cbn [rmatch]. rewrite existsb_exists. split.
  - intros (r & Hr & Hm). apply in_map_iff in Hr as (w & <- & Hw).
    cbn [rmatch] in Hm.
    destruct (strip_prefix (js w) s) as [rest|] eqn:Hp; [|done].
    apply strip_prefix_spec in Hp. exists w, rest.
    split_and!; [by apply list_elem_of_In | done | done].
  - intros (w & rest & Hw & Heq & Hk). exists (Lit (js w)). split.
    + apply (in_map (fun w0 => Lit (js w0))). by apply list_elem_of_In.
    + cbn [rmatch]. apply strip_prefix_spec in Heq. by rewrite Heq.
Qed.

Lemma rmatch_boundary prev s :
  rmatch WordBoundary prev s (fun _ _ => true) = true <->
  isWordAt prev ≠ isWordAt (head s).
Proof.
  cbn [rmatch]. destruct (isWordAt prev), (isWordAt (head s)); simpl;
    split; congruence.
Qed.

(** [/^(w1|w2|...)\b/] for words that end in a word character. *)
Lemma test_words_boundary (l : list string) s :
  Forall endsInWordChar l ->
  test (Seq (words l) WordBoundary) s = true <->
  exists w rest, w ∈ l /\ s = js w ++ rest
                 /\ isWordAt (head rest) = false.
Proof.
  intros Hl. unfold test. cbn [rmatch]. rewrite rmatch_words. split.
  - intros (w & rest & Hw & Heq & Hb). exists w, rest.
    split_and!; [done | done|].
    apply rmatch_boundary in Hb.
    rewrite Forall_forall in Hl. destruct (Hl w Hw) as [_ Hlast].
    rewrite Hlast in Hb. by destruct (isWordAt (head rest)).
  - intros (w & rest & Hw & Heq & Hnext). exists w, rest.
    split_and!; [done | done|]. apply rmatch_boundary.
    rewrite Forall_forall in Hl. destruct (Hl w Hw) as [_ Hlast].
    rewrite Hlast, Hnext. done.
Qed.

(** [/^(good\s*(d1|d2|...))\b/] *)
Lemma test_good_day (l : list string) s :
  Forall endsInWordChar l ->
  test (Seq (Seq (Lit (js "good")) (Seq SpaceStar (words l))) WordBoundary) s
    = true <->
  exists sp d rest, allSpace sp /\ d ∈ l
                    /\ s = js "good" ++ sp ++ js d ++ rest
                    /\ isWordAt (head rest) = false.
Proof.
  intros Hl. rewrite Forall_forall in Hl. unfold test. cbn [rmatch]. split.
  - destruct (strip_prefix (js "good") s) as [r1|] eqn:Hp; [|done].
    apply strip_prefix_spec in Hp.
    intros (sp & r2 & -> & Hsp & Hm)%space_star_spec.
    apply rmatch_words in Hm as (d & rest & Hd & -> & Hb).
    exists sp, d, rest. split_and!; [done | done | done|].
    apply rmatch_boundary in Hb. destruct (Hl d Hd) as [Hne Hlast].
    rewrite (last_or_nonempty _ _ Hne), Hlast in Hb.
    by destruct (isWordAt (head rest)).
  - intros (sp & d & rest & Hsp & Hd & -> & Hnext).
    assert (Hp : strip_prefix (js "good") (js "good" ++ sp ++ js d ++ rest)
                 = Some (sp ++ js d ++ rest)) by (by apply strip_prefix_spec).
    rewrite Hp. apply space_star_spec. exists sp, (js d ++ rest).
    split_and!; [done | done|]. apply rmatch_words. exists d, rest.
    split_and!; [done | done|]. apply rmatch_boundary.
    destruct (Hl d Hd) as [Hne Hlast].
    rewrite (last_or_nonempty _ _ Hne), Hlast, Hnext. done.
Qed.

(** [/^(l1|l2|...)/] *)
Lemma test_alt_lits (l : list JSString) s :
  test (Alt (map Lit l)) s = true <-> exists w rest, w ∈ l /\ s = w ++ rest.
Proof.
  unfold test. cbn [rmatch]. rewrite existsb_exists. split.
  - intros (r & Hr & Hm). apply in_map_iff in Hr as (w & <- & Hw).
    cbn [rmatch] in Hm.
    destruct (strip_prefix w s) as [rest|] eqn:Hp; [|done].
    apply strip_prefix_spec in Hp. exists w, rest.
    split; [by apply list_elem_of_In | done].
  - intros (w & rest & Hw & Heq). exists (Lit w). split.
    + apply in_map. by apply list_elem_of_In.
    + cbn [rmatch]. apply strip_prefix_spec in Heq. by rewrite Heq.
Qed.

Lemma words_end_in_word_char :
  Forall endsInWordChar openerWords /\ Forall endsInWordChar dayParts.
Proof.
  split;
    cbv [openerWords greetingWords thanksWords ackWords farewellWords
         yesNoWords smallTalkWords dayParts app];
    repeat (constructor; [split; [vm_compute; discriminate | reflexivity]|]);
    constructor.
Qed.

End PatternFacts.

(** X17. What the eight patterns accept. A lower-cased, trimmed text
    matches one of them exactly when it starts with one of the opener words
    and the word is followed by the end of the text or by a character that
    is not a letter, a digit or an underscore; or with ["good"], any run of
    white space, a part of the day and such a boundary; or with a laugh or
    one of the three emoji, with nothing asked of what follows. *)
Theorem casualPatterns_spec (s : JSString) :
  anyPattern casualPatterns s = true <->
  (exists w rest, w ∈ openerWords /\ s = js w ++ rest
                  /\ isWordAt (head rest) = false)
  \/ (exists sp d rest, allSpace sp /\ d ∈ dayParts
                        /\ s = js "good" ++ sp ++ js d ++ rest
                        /\ isWordAt (head rest) = false)
  \/ (exists w rest, w ∈ laughOpeners /\ s = w ++ rest).
Proof.
  destruct words_end_in_word_char as [Hopen Hday].
  unfold openerWords in Hopen. rewrite !Forall_app in Hopen.
  destruct Hopen as (Hg & Ht & Ha & Hf & Hy & Hs).
  assert (Hcp : casualPatterns =
    [ Seq (words greetingWords) WordBoundary;
      Seq (Seq (Lit (js "good")) (Seq SpaceStar (words dayParts)))
          WordBoundary;
      Seq (words thanksWords) WordBoundary;
      Seq (words ackWords) WordBoundary;
      Seq (words farewellWords) WordBoundary;
      Seq (words yesNoWords) WordBoundary;
      Alt (map Lit laughOpeners);
      Seq (words smallTalkWords) WordBoundary ]) by reflexivity.
  rewrite anyPattern_spec, Hcp. unfold openerWords. split.
  - intros (r & Hr & Hm).
    repeat (apply elem_of_cons in Hr as [->|Hr]).
    + apply (test_words_boundary _ _ Hg) in Hm as (w & rest & Hw & ? & ?).
      left. exists w, rest. split_and!; try done.
      rewrite !elem_of_app. tauto.
    + apply (test_good_day _ _ Hday) in Hm. by right; left.
    + apply (test_words_boundary _ _ Ht) in Hm as (w & rest & Hw & ? & ?).
      left. exists w, rest. split_and!; try done.
      rewrite !elem_of_app. tauto.
    + apply (test_words_boundary _ _ Ha) in Hm as (w & rest & Hw & ? & ?).
      left. exists w, rest. split_and!; try done.
      rewrite !elem_of_app. tauto.
    + apply (test_words_boundary _ _ Hf) in Hm as (w & rest & Hw & ? & ?).
      left. exists w, rest. split_and!; try done.
      rewrite !elem_of_app. tauto.
    + apply (test_words_boundary _ _ Hy) in Hm as (w & rest & Hw & ? & ?).
      left. exists w, rest. split_and!; try done.
      rewrite !elem_of_app. tauto.
    + apply test_alt_lits in Hm. by right; right.
    + apply (test_words_boundary _ _ Hs) in Hm as (w & rest & Hw & ? & ?).
      left. exists w, rest. split_and!; try done.
      rewrite !elem_of_app. tauto.
    + by apply elem_of_nil in Hr.
  - intros [(w & rest & Hw & Heq & Hb)|[Hgood|Hlaugh]].
    + rewrite !elem_of_app in Hw.
      destruct Hw as [Hw|[Hw|[Hw|[Hw|[Hw|Hw]]]]].
      * exists (Seq (words greetingWords) WordBoundary). split.
        -- apply list_elem_of_here.
        -- apply (test_words_boundary _ _ Hg). by exists w, rest.
      * exists (Seq (words thanksWords) WordBoundary). split.
        -- do 2 apply list_elem_of_further. apply list_elem_of_here.
        -- apply (test_words_boundary _ _ Ht). by exists w, rest.
      * exists (Seq (words ackWords) WordBoundary). split.
        -- do 3 apply list_elem_of_further. apply list_elem_of_here.
        -- apply (test_words_boundary _ _ Ha). by exists w, rest.
      * exists (Seq (words farewellWords) WordBoundary). split.
        -- do 4 apply list_elem_of_further. apply list_elem_of_here.
        -- apply (test_words_boundary _ _ Hf). by exists w, rest.
      * exists (Seq (words yesNoWords) WordBoundary). split.
        -- do 5 apply list_elem_of_further. apply list_elem_of_here.
        -- apply (test_words_boundary _ _ Hy). by exists w, rest.
      * exists (Seq (words smallTalkWords) WordBoundary). split.
        -- do 7 apply list_elem_of_further. apply list_elem_of_here.
        -- apply (test_words_boundary _ _ Hs). by exists w, rest.
    + eexists. split.
      * apply list_elem_of_further, list_elem_of_here.
      * by apply (test_good_day _ _ Hday).
    + eexists. split.
      * do 6 apply list_elem_of_further. apply list_elem_of_here.
      * by apply test_alt_lits.
Qed.

(** * White space around the text *)

Section TrimFacts.
Implicit Types (s x y sp : JSString).

Lemma trimStart_app_space sp x : allSpace sp -> trimStart (sp ++ x) = trimStart x.
Proof.
  induction sp as [|c sp IH]; intros Hsp; [done|].
  apply Forall_cons in Hsp as [Hc Hsp]. simpl. rewrite Hc. by apply IH.
Qed.

Lemma trimStart_space sp : allSpace sp -> trimStart sp = [].
Proof.
  intros Hsp. rewrite <- (app_nil_r sp). by rewrite trimStart_app_space.
Qed.

Lemma trimStart_nil_space x : trimStart x = [] -> allSpace x.
Proof.
  induction x as [|c x IH]; simpl; [by constructor|].
  destruct (isSpace c) eqn:Hc; [|done].
  intros Hx. constructor; [done | by apply IH].
Qed.

Lemma trimStart_app_kept x y :
  trimStart x ≠ [] -> trimStart (x ++ y) = trimStart x ++ y.
Proof.
  induction x as [|c x IH]; simpl; [done|].
  destruct (isSpace c); [apply IH | done].
Qed.

Lemma trimEnd_app_space y sp : allSpace sp -> trimEnd (y ++ sp) = trimEnd y.
Proof.
  intros Hsp. unfold trimEnd. rewrite rev_app_distr.
  rewrite trimStart_app_space; [done|]. by apply Forall_rev.
Qed.

Lemma trim_padding sp1 x sp2 :
  allSpace sp1 -> allSpace sp2 -> trim (sp1 ++ x ++ sp2) = trim x.
Proof.
  intros H1 H2. unfold trim. rewrite trimStart_app_space by done.
  destruct (trimStart x) as [|c r] eqn:Hx.
  - rewrite trimStart_space; [done|].
    apply Forall_app. split; [by apply trimStart_nil_space | done].
  - rewrite trimStart_app_kept by (by rewrite Hx). rewrite Hx.
    by apply trimEnd_app_space.
Qed.

End TrimFacts.

(** X18. White space around a text does not change whether it is casual,
    the patterns and the keyword test seeing the trimmed text only; the
    length gate of the hook counts the text as given. So a text that is not
    casual passes the gate once padding brings it to 30 code units, however
    short it is without the padding. Lower-casing is asked to leave the
    padding in place. *)
Theorem casual_ignores_padding (toLowerCase : JSString -> JSString)
    (sp1 text sp2 : JSString) :
  allSpace sp1 ->
  allSpace sp2 ->
  toLowerCase (sp1 ++ text ++ sp2) = sp1 ++ toLowerCase text ++ sp2 ->
  lowered toLowerCase (sp1 ++ text ++ sp2) = lowered toLowerCase text
  /\ looksLikeCasualChat toLowerCase (sp1 ++ text ++ sp2)
     = looksLikeCasualChat toLowerCase text
  /\ (looksLikeCasualChat toLowerCase text = false ->
      30 <= length (sp1 ++ text ++ sp2) ->
      shouldConsultMemory toLowerCase (sp1 ++ text ++ sp2) = true).
Proof.
  intros H1 H2 Hlow.
  assert (Hl : lowered toLowerCase (sp1 ++ text ++ sp2)
               = lowered toLowerCase text).
  { unfold lowered. rewrite Hlow. by apply trim_padding. }
  assert (Hc : looksLikeCasualChat toLowerCase (sp1 ++ text ++ sp2)
               = looksLikeCasualChat toLowerCase text).
  { unfold looksLikeCasualChat. by rewrite Hl. }
  split_and!; [done | done |].
  intros Hcas Hlen. unfold shouldConsultMemory.
  destruct (sp1 ++ text ++ sp2) as [|c padded] eqn:Hp; [simpl in Hlen; lia|].
  rewrite <- Hp in *.
  destruct (Nat.ltb_spec (length (sp1 ++ text ++ sp2)) 30); [lia|].
  by rewrite Hc, Hcas.
Qed.

Lemma casual_ignores_padding_witness :
  shouldConsultMemory toLowerCaseLatin (js "what did we decide?") = false
  /\ shouldConsultMemory toLowerCaseLatin
       (js "what did we decide?" ++ js "           ") = true.
Proof.
  split; [reflexivity|].
  destruct (casual_ignores_padding toLowerCaseLatin []
              (js "what did we decide?") (js "           "))
    as (_ & _ & Hgate).
  - constructor.
  - repeat constructor.
  - reflexivity.
  - apply Hgate; [reflexivity | vm_compute; lia].
Defined.

(** * Tool labels and registration *)

Section SplitFacts.
Implicit Types (s p : JSString) (sep : N).

Lemma splitOn_nonempty sep s : splitOn sep s ≠ [].
Proof.
  destruct s as [|c s]; simpl; [done|].
  destruct (c =? sep)%N; [done|]. by destruct (splitOn sep s).
Qed.

Lemma splitOn_no_sep sep s : Forall (fun p => sep ∉ p) (splitOn sep s).
Proof.
  induction s as [|c s IH]; simpl.
  - constructor; [apply not_elem_of_nil | constructor].
  - destruct (N.eqb_spec c sep) as [->|Hne].
    + constructor; [apply not_elem_of_nil | done].
    + destruct (splitOn sep s) as [|p ps]; simpl.
      * constructor; [|constructor].
        intros [->|Hin]%elem_of_cons; [done | by apply elem_of_nil in Hin].
      * apply Forall_cons in IH as [Hp Hps]. constructor; [|done].
        intros [->|Hin]%elem_of_cons; done.
Qed.

(** Joining the parts with the separator gives the string back. *)
Lemma splitOn_join sep s : join [sep] (splitOn sep s) = s.
Proof.
  induction s as [|c s IH]; simpl; [done|].
  destruct (N.eqb_spec c sep) as [->|Hne].
  - pose proof (splitOn_nonempty sep s) as Hne.
    destruct (splitOn sep s) as [|p ps]; [done|]. simpl in *. by rewrite IH.
  - pose proof (splitOn_nonempty sep s) as Hn.
    destruct (splitOn sep s) as [|p ps]; [done|].
    destruct ps as [|q qs]; simpl in *; by rewrite <- IH.
Qed.

Lemma join_no_sep (c : N) (sep : JSString) (l : list JSString) :
  c ∉ sep -> Forall (fun p => c ∉ p) l -> c ∉ join sep l.
Proof.
  intros Hsep. induction l as [|p l IH]; intros Hl; simpl.
  - apply not_elem_of_nil.
  - apply Forall_cons in Hl as [Hp Hl]. destruct l as [|q l]; [done|].
    rewrite !not_elem_of_app. split_and!; [done | done | by apply IH].
Qed.

Lemma toUpperCaseLatin_no_underscore (w : JSString) :
  95%N ∉ w -> 95%N ∉ toUpperCaseLatin w.
Proof.
  induction w as [|c w IH]; simpl; [done|].
  rewrite !not_elem_of_cons. intros [Hc Hw]. split; [|by apply IH].
  destruct ((97 <=? c) && (c <=? 122))%N eqn:Hrange; [|done].
  apply andb_true_iff in Hrange as [H1%N.leb_le H2%N.leb_le]. lia.
Qed.

End SplitFacts.

(** A code unit is not in a list given in full. *)
Ltac not_in_literal :=
  let Hin := fresh "Hin" in
  intros Hin; apply list_elem_of_In in Hin; vm_compute in Hin;
  intuition discriminate.

(** X19. A label never contains an underscore: the name is cut at its
    underscores, the first part is replaced by its display name when it has
    one, the others are capitalised and separated by single spaces. Parts
    joined by underscores give the name back. Upper-casing is asked not to
    produce an underscore. *)
Theorem toolNameToLabel_no_underscore (toUpperCase : JSString -> JSString)
    (name label : JSString) :
  (forall w, 95%N ∉ w -> 95%N ∉ toUpperCase w) ->
  toolNameToLabel toUpperCase name = Some label ->
  (95%N ∉ label)
  /\ join [95%N] (splitOn 95 name) = name
  /\ exists prefix,
       label = prefix ++ js ": "
                 ++ join (js " ")
                      (map (capitalize toUpperCase) (tl (splitOn 95 name)))
       /\ (ownProperty (hd [] (splitOn 95 name)) prefixMap = Some prefix
           \/ (ownProperty (hd [] (splitOn 95 name)) prefixMap = None
               /\ prefix = hd [] (splitOn 95 name))).
Proof.
  intros Hup. unfold toolNameToLabel.
  pose proof (splitOn_no_sep 95 name) as Hparts.
  pose proof (splitOn_nonempty 95 name) as Hne.
  destruct (splitOn 95 name) as [|first parts] eqn:Hsplit; [done|].
  apply Forall_cons in Hparts as [Hfirst Hrest]. cbn [hd tl].
  assert (Hjoin : 95%N ∉ join (js " ") (map (capitalize toUpperCase) parts)).
  { apply join_no_sep; [not_in_literal|].
    apply Forall_map. eapply Forall_impl; [exact Hrest|].
    intros w Hw. unfold capitalize. simpl. rewrite not_elem_of_app. split.
    - apply Hup. intros Hin. apply Hw. by apply (subseteq_take 1 w).
    - intros Hin. apply Hw. by apply (subseteq_drop 1 w). }
  assert (Hcolon : 95%N ∉ js ": ") by not_in_literal.
  assert (Hround : join [95%N] (first :: parts) = name)
    by (rewrite <- Hsplit; apply splitOn_join).
  set (rest := join (js " ") (map (capitalize toUpperCase) parts)) in *.
  destruct (ownProperty first prefixMap) as [prefix|] eqn:Hown.
  - intros Heq.
    assert (Hlabel : label = prefix ++ js ": " ++ rest) by congruence.
    subst label. clear Heq. split; [|split].
    + rewrite !not_elem_of_app. split; [|split; [exact Hcolon | exact Hjoin]].
      revert Hown. unfold prefixMap. cbn [ownProperty].
      repeat (case_decide; [intros [= <-]; not_in_literal|]).
      done.
    + exact Hround.
    + exists prefix. split; [reflexivity | by left].
  - destruct (bool_decide (first ∈ inheritedProperties)); [done|].
    intros Heq.
    assert (Hlabel : label = first ++ js ": " ++ rest) by congruence.
    subst label. clear Heq. split; [|split].
    + rewrite !not_elem_of_app.
      split; [exact Hfirst | split; [exact Hcolon | exact Hjoin]].
    + exact Hround.
    + exists first. split; [reflexivity | by right].
Qed.

(** The example of the source's comment. *)
Lemma toolNameToLabel_no_underscore_witness :
  toolNameToLabel toUpperCaseLatin (js "gmail_send_email")
    = Some (js "Gmail: Send Email")
  /\ (95%N ∉ js "Gmail: Send Email").
Proof.
  split; [reflexivity|].
  apply (toolNameToLabel_no_underscore toUpperCaseLatin
           (js "gmail_send_email") (js "Gmail: Send Email")).
  - apply toUpperCaseLatin_no_underscore.
  - reflexivity.
Defined.

Section RegisterFacts.

Lemma firstTruthy_nil a b :
  firstTruthy a b [] = [] <-> truthy a = None /\ truthy b = None.
Proof.
  unfold firstTruthy.
  destruct a as [[|x a]|], b as [[|y b]|]; simpl; split;
    (done || by intros [??]).
Qed.

Lemma integrationTools_not_builtin caps :
  Forall (fun name => name ∉ momoToolNames) (integrationTools caps).
Proof.
  unfold integrationTools.
  destruct caps as [[|] [[|t tools]|]|]; try constructor.
  apply Forall_forall. intros name Hin.
  apply list_elem_of_In, filter_In in Hin as [_ Hkeep].
  apply negb_true_iff, bool_decide_eq_false in Hkeep. done.
Qed.

Lemma integrationTools_sublist caps tools :
  caps = CapsResolved true (Some tools) ->
  sublist (integrationTools caps) tools.
Proof.
  intros ->. unfold integrationTools. destruct tools as [|t tools]; [done|].
  generalize (t :: tools). intros l.
  induction l as [|x l IH]; simpl; [constructor|].
  destruct (negb _); [by apply sublist_skip | by apply sublist_cons].
Qed.

Lemma builtinTools_NoDup : NoDup builtinTools.
Proof. apply (bool_decide_unpack _). by vm_compute. Qed.

End RegisterFacts.

(** X20. What [register] registers. Without an API key, in the plugin
    configuration or the environment, nothing is registered. With one, the
    seven built-in tools come first, under distinct names that make up the
    set skipped by the dynamic registration; the integration tools follow
    in the order of the capabilities answer, none under a built-in name,
    and none at all when the call fails or reports no success. The capture
    and recall hooks are registered unless the configuration holds the
    boolean [false] for them, and the service always. *)
Theorem register_keeps_builtin_tools (pluginConfig : PluginConfig)
    (env : Environment) (caps : CapsOutcome) :
  let config := resolveConfig pluginConfig env in
  let reg := register config caps in
  (apiKey config = [] <->
     truthy (cfg_apiKey pluginConfig) = None
     /\ truthy (env_apiKey env) = None)
  /\ (apiKey config = [] ->
      reg = {| reg_tools := []; reg_hooks := []; reg_cli := false;
               reg_service := false |})
  /\ (apiKey config ≠ [] ->
      reg_tools reg = builtinTools ++ integrationTools caps
      /\ NoDup builtinTools
      /\ momoToolNames = builtinTools
      /\ Forall (fun name => name ∉ builtinTools) (integrationTools caps)
      /\ (forall tools, caps = CapsResolved true (Some tools) ->
            sublist (integrationTools caps) tools)
      /\ (forall tools, caps = CapsRejected \/ caps = CapsResolved false tools ->
            reg_tools reg = builtinTools)
      /\ (js "agent_end" ∈ reg_hooks reg <->
            cfg_autoCapture pluginConfig ≠ FlagBool false)
      /\ (js "before_agent_start" ∈ reg_hooks reg <->
            cfg_autoRecall pluginConfig ≠ FlagBool false)
      /\ reg_service reg = true).
Proof.
  intros config reg. split_and!.
  - apply firstTruthy_nil.
  - intros Hkey. unfold reg, register. by rewrite Hkey.
  - intros Hkey.
    assert (Hreg : reg =
      {| reg_tools := builtinTools ++ integrationTools caps;
         reg_hooks :=
           (if autoRecall config then [js "before_agent_start"] else [])
           ++ (if autoCapture config then [js "agent_end"] else []);
         reg_cli := true; reg_service := true |}).
    { unfold reg, register. by destruct (apiKey config). }
    rewrite Hreg. cbn [reg_tools reg_hooks reg_service].
    split_and!; try done.
    + apply builtinTools_NoDup.
    + apply integrationTools_not_builtin.
    + apply integrationTools_sublist.
    + intros tools [->| ->]; cbn [integrationTools]; apply app_nil_r.
    + unfold config, resolveConfig. cbn [autoCapture autoRecall].
      destruct (cfg_autoRecall pluginConfig) as [|[|]|],
               (cfg_autoCapture pluginConfig) as [|[|]|]; simpl;
        split; try done;
        try (by intros _; rewrite ?elem_of_cons; auto);
        intros Hin; exfalso;
        apply list_elem_of_In in Hin; vm_compute in Hin;
        intuition discriminate.
    + unfold config, resolveConfig. cbn [autoCapture autoRecall].
      destruct (cfg_autoRecall pluginConfig) as [|[|]|],
               (cfg_autoCapture pluginConfig) as [|[|]|]; simpl;
        split; try done;
        try (by intros _; rewrite ?elem_of_cons; auto);
        intros Hin; exfalso;
        apply list_elem_of_In in Hin; vm_compute in Hin;
        intuition discriminate.
Qed.
